(** * Crossword CSP solver (optimization/crossword/generate.py)

    A shallow embedding of [CrosswordCreator] and the properties its
    specification states about node consistency, arc consistency (revise
    and AC-3) and the search, followed by further properties of these
    methods and of [__init__], [letter_grid], [assignment_complete] and
    [consistent].

    Python objects are modelled as follows.
    - A [set] of words is a [gset string]; iterating over it visits
      [elements s].
    - [self.domains] is a [dict] from variables to set objects.  The sets are
      mutated in place ([set.remove]) through the dict, so the set objects
      live in a heap ([list (gset string)], a reference is an index) and the
      dict maps a variable to its reference.
    - A statement that raises leaves the mutations made so far in place: a
      computation maps a state to an outcome and a state. *)

From Stdlib Require Import Ascii String.
From stdpp Require Import gmap strings list fin_maps.

(** ** Data model *)

Inductive direction := ACROSS | DOWN.

(** The class [Variable] of the crossword module: a slot is identified by its
    starting cell, its direction and its length. *)
Record variable := mkVariable {
  var_i : nat;
  var_j : nat;
  var_direction : direction;
  var_length : nat
}.

#[global] Instance direction_eq_dec : EqDecision direction.
Proof. solve_decision. Defined.

#[global] Instance variable_eq_dec : EqDecision variable.
Proof. solve_decision. Defined.

#[global] Instance direction_countable : Countable direction.
Proof.
  refine (inj_countable' (λ d, match d with ACROSS => false | DOWN => true end)
                         (λ b : bool, if b then DOWN else ACROSS) _).
  by intros [].
Defined.

#[global] Instance variable_countable : Countable variable.
Proof.
  refine (inj_countable'
            (λ v, (var_i v, var_j v, var_direction v, var_length v))
            (λ t, match t with (i, j, d, l) => mkVariable i j d l end) _).
  by intros [].
Defined.

(** The crossword object the creator is built from.  Its class is not part
    of the solver file; the solver reads three attributes of it:
    [variables] (a set of slots), [words] (the vocabulary) and [overlaps]
    (a dict keyed by ordered pairs of slots, holding [None] or a pair of
    character offsets). *)
Record Crossword := mkCrossword {
  variables : gset variable;
  words : gset string;
  overlaps : gmap (variable * variable) (option (nat * nat))
}.

(** Modelled from the spec: the neighbor query of the grid model, absent
    from the solver file ("given a slot, return all other slots with a
    non-none overlap"). *)
Definition neighbors (cw : Crossword) (var : variable) : gset variable :=
  filter (λ v, v ≠ var ∧ is_Some (mjoin (overlaps cw !! (v, var))))
         (variables cw).

(** The contract of the grid model (spec, overlap table): the table has an
    entry exactly for the ordered pairs of distinct slots, an overlap read in
    the other direction swaps the two offsets, and an offset lies inside its
    slot. *)
Record wf_crossword (cw : Crossword) : Prop := {
  wf_keys : ∀ x y, is_Some (overlaps cw !! (x, y)) ↔
                   x ∈ variables cw ∧ y ∈ variables cw ∧ x ≠ y;
  wf_sym : ∀ x y i j, overlaps cw !! (x, y) = Some (Some (i, j)) →
                      overlaps cw !! (y, x) = Some (Some (j, i));
  wf_bounds : ∀ x y i j, overlaps cw !! (x, y) = Some (Some (i, j)) →
                         i < var_length x ∧ j < var_length y
}.

(** The state of a [CrosswordCreator]: the dict bound to [self.domains] and
    the heap of set objects it refers to. *)
Record creator := mkCreator {
  domains : gmap variable nat;
  heap : list (gset string)
}.

(** An assignment is a dict from slots to words. *)
Abbreviation Assignment := (gmap variable string).

(** ** Computations: state, exceptions *)

Inductive exn := KeyError | IndexError | TypeError.

Inductive outcome (A : Type) :=
  | Return (a : A)
  | Raise (e : exn)
  | OutOfFuel.
Arguments Return {A} a.
Arguments Raise {A} e.
Arguments OutOfFuel {A}.

Definition M (A : Type) : Type := creator → outcome A * creator.

Definition ret {A} (a : A) : M A := λ st, (Return a, st).

Definition raise {A} (e : exn) : M A := λ st, (Raise e, st).

Definition bind {A B} (m : M A) (k : A → M B) : M B := λ st,
  match m st with
  | (Return a, st') => k a st'
  | (Raise e, st') => (Raise e, st')
  | (OutOfFuel, st') => (OutOfFuel, st')
  end.

Notation "'let*' x := m 'in' k" := (bind m (λ x, k))
  (at level 10, x binder, m at level 100, k at level 200,
   format "'[' 'let*'  x  :=  m  'in' ']' '/' k").

(** The number of words held by the set objects of a heap. *)
Definition total (h : list (gset string)) : nat := sum_list_with size h.

(** ** Reading and mutating the domains *)

(** The words [self.domains] holds for [x] in a state, if any. *)
Definition domain_of (st : creator) (x : variable) : option (gset string) :=
  l ← domains st !! x; heap st !! l.

(** [self.domains[x]]: the set object bound to [x]; [KeyError] when the
    dict has no such key.  (A reference outside the heap is reported the same
    way; a creator built by [init] has none, see [allocated].) *)
Definition domains_getitem (x : variable) : M (gset string) := λ st,
  match domain_of st x with
  | Some s => (Return s, st)
  | None => (Raise KeyError, st)
  end.

(** [self.domains[x].remove(value)]: mutates the set object in place and
    raises [KeyError] when the value is not in it. *)
Definition domains_remove (x : variable) (value : string) : M unit := λ st,
  match domains st !! x with
  | None => (Raise KeyError, st)
  | Some l =>
      match heap st !! l with
      | None => (Raise KeyError, st)
      | Some s =>
          if decide (value ∈ s)
          then (Return (), mkCreator (domains st) (<[l := s ∖ {[value]}]> (heap st)))
          else (Raise KeyError, st)
      end
  end.

(** [word[k]] for a non-negative index. *)
Definition str_getitem {A} (word : string) (k : nat) (cont : ascii → M A) : M A :=
  match String.get k word with
  | Some c => cont c
  | None => raise IndexError
  end.

(** [__init__]: every variable gets its own copy of the vocabulary. *)
Definition init (cw : Crossword) : creator :=
  let vars := elements (variables cw) in
  mkCreator (list_to_map (zip vars (seq 0 (length vars))))
            (replicate (length vars) (words cw)).

(** ** Node consistency *)

Section Solver.

Variable cw : Crossword.

(** The inner loop of [enforce_node_consistency], over the copy of the
    domain taken before it. *)
Fixpoint enforce_node_values (var : variable) (values : list string) : M unit :=
  match values with
  | [] => ret ()
  | value :: rest =>
      let* _ := (if decide (var_length var ≠ String.length value)
                 then domains_remove var value
                 else ret ()) in
      enforce_node_values var rest
  end.

(** The outer loop, over the keys of [self.domains]. *)
Fixpoint enforce_node_vars (vars : list variable) : M unit :=
  match vars with
  | [] => ret ()
  | var :: rest =>
      let* values := domains_getitem var in
      let* _ := enforce_node_values var (elements values) in
      enforce_node_vars rest
  end.

Definition enforce_node_consistency : M unit := λ st,
  enforce_node_vars (map_to_list (domains st)).*1 st.

(** ** Arc consistency: revise *)

(** The inner loop of [revise]: is there a word of [y]'s domain that agrees
    with [x_value] at the overlap?  The loop stops at the first one. *)
Fixpoint has_valid_y (x_value : string) (i j : nat) (ys : list string) : M bool :=
  match ys with
  | [] => ret false
  | y_value :: rest =>
      str_getitem x_value i (λ a,
      str_getitem y_value j (λ b,
      if decide (a = b) then ret true else has_valid_y x_value i j rest))
  end.

(** The outer loop of [revise], over the copy [x_domain]; [i] and [j] are
    [overlap[0]] and [overlap[1]]. *)
Fixpoint revise_loop (x y : variable) (i j : nat) (x_domain : list string)
    (result : bool) : M bool :=
  match x_domain with
  | [] => ret result
  | x_value :: rest =>
      let* ys := domains_getitem y in
      let* has_valid := has_valid_y x_value i j (elements ys) in
      if has_valid
      then revise_loop x y i j rest result
      else let* _ := domains_remove x x_value in
           revise_loop x y i j rest true
  end.

(** [self.crossword.overlaps[x, y]]. *)
Definition overlaps_getitem (x y : variable) : M (option (nat * nat)) :=
  match overlaps cw !! (x, y) with
  | Some o => ret o
  | None => raise KeyError
  end.

Definition revise (x y : variable) : M bool :=
  let* overlap := overlaps_getitem x y in
  match overlap with
  | None => ret false
  | Some (i, j) =>
      let* x_domain := domains_getitem x in
      revise_loop x y i j (elements x_domain) false
  end.

(** ** Arc consistency: AC-3 *)

(** [arcs.pop()]: removes and returns the last item of a list. *)
Fixpoint list_pop {A} (l : list A) : option (list A * A) :=
  match l with
  | [] => None
  | a :: l' =>
      match list_pop l' with
      | None => Some ([], a)
      | Some (l'', b) => Some (a :: l'', b)
      end
  end.

(** The worklist built when [arcs] is [None]: every key of the overlap
    table whose entry is not [None], each inserted at position 0. *)
Definition initial_arcs : list (variable * variable) :=
  fold_left (λ arcs kv, if decide (kv.2 ≠ None) then kv.1 :: arcs else arcs)
            (map_to_list (overlaps cw)) [].

(** The arcs queued after [x] was revised against [y]. *)
Definition enqueue_neighbors (x y : variable) (arcs : list (variable * variable))
    : list (variable * variable) :=
  fold_left (λ arcs z, if decide (y ≠ z) then (z, x) :: arcs else arcs)
            (elements (neighbors cw x)) arcs.

(** The [while] loop of [ac3]; [fuel] bounds the number of iterations. *)
Fixpoint ac3_loop (fuel : nat) (arcs : list (variable * variable)) : M bool :=
  match fuel with
  | 0 => λ st, (OutOfFuel, st)
  | S fuel' =>
      match list_pop arcs with
      | None => ret true
      | Some (arcs', (x, y)) =>
          let* revised := revise x y in
          if revised
          then let* x_domain := domains_getitem x in
               if decide (size x_domain = 0)
               then ret false
               else ac3_loop fuel' (enqueue_neighbors x y arcs')
          else ac3_loop fuel' arcs'
      end
  end.

(** An iteration of the loop either removes a word from some set or
    shortens the worklist; this many iterations are never all used. *)
Definition ac3_fuel (st : creator) (arcs : list (variable * variable)) : nat :=
  S (length arcs + total (heap st) * S (size (variables cw))).

Definition ac3 (arcs : option (list (variable * variable))) : M bool := λ st,
  let arcs := match arcs with None => initial_arcs | Some arcs => arcs end in
  ac3_loop (ac3_fuel st arcs) arcs st.

(** ** Search *)

(** [l.sort(f)] with a positional argument.  The parameters of [list.sort]
    ([key] and [reverse]) are keyword-only: the call raises [TypeError]
    before the list is touched or [f] is called. *)
Definition list_sort_positional {A K} (l : list A) (f : A → K) : M (list A) :=
  raise TypeError.

(** [self.domains[var]] where [var] is a list: a list is unhashable, the
    lookup raises [TypeError]. *)
Definition domains_getitem_list (var : list variable) : M (gset string) :=
  raise TypeError.

(** [select_unassigned_variable]: the unassigned variables, then the call
    of [sort] with the ranking function as a positional argument. *)
Definition select_unassigned_variable (assignment : Assignment)
    : M (list variable) := λ st,
  let unassigned_variables := elements (dom (domains st) ∖ dom assignment) in
  (let* sorted :=
     list_sort_positional unassigned_variables
       (λ x, size (default ∅ (domain_of st x)) * 10000 + size (neighbors cw x)) in
   ret sorted) st.

(** The innermost loop of [order_domain_values].  On a neighbor value equal
    to [value] the rank dict itself is added to 1, which raises
    [TypeError]. *)
Fixpoint order_neighbor_values (value : string) (neighbor_values : list string)
    : M unit :=
  match neighbor_values with
  | [] => ret ()
  | neighbor_value :: rest =>
      if decide (neighbor_value = value)
      then raise TypeError
      else order_neighbor_values value rest
  end.

(** The loop of [order_domain_values] over the neighbors of [var]. *)
Fixpoint order_neighbors (value : string) (assignment : Assignment)
    (ns : list variable) : M unit :=
  match ns with
  | [] => ret ()
  | neighbor :: rest =>
      if decide (is_Some (assignment !! neighbor))
      then order_neighbors value assignment rest
      else let* neighbor_values := domains_getitem neighbor in
           let* _ := order_neighbor_values value (elements neighbor_values) in
           order_neighbors value assignment rest
  end.

(** The loop of [order_domain_values] over the domain of [var]; [rank] is
    [elimination_rank_per_value_dict]. *)
Fixpoint order_values (var : variable) (assignment : Assignment)
    (values : list string) (rank : gmap string nat) (result : list string)
    : M (gmap string nat * list string) :=
  match values with
  | [] => ret (rank, result)
  | value :: rest =>
      let result := result ++ [value] in
      let rank := <[value := 0]> rank in
      let* _ := order_neighbors value assignment (elements (neighbors cw var)) in
      order_values var assignment rest rank result
  end.

Definition order_domain_values (var : variable) (assignment : Assignment)
    : M (list string) :=
  let* values := domains_getitem var in
  let* ranked := order_values var assignment (elements values) ∅ [] in
  list_sort_positional ranked.2 (λ x, default 0 (ranked.1 !! x)).

(** The loop of [consistent] over the neighbors of [variable].  The
    condition [variable[i] != neighbor[j]] subscripts the two slots
    themselves, not their words; the class of the slots (a record of four
    fields, see the data model) has no item access and the subscript raises
    [TypeError].  When the overlap is [None], unpacking it into [i, j] raises
    [TypeError] before that. *)
Definition consistent_neighbors (var : variable) (ns : list variable)
    : M unit :=
  match ns with
  | [] => ret ()
  | neighbor :: _ =>
      let* overlap := overlaps_getitem var neighbor in
      match overlap with
      | None => raise TypeError
      | Some (i, j) => raise TypeError
      end
  end.

(** The loop of [consistent] over the assignment. *)
Fixpoint consistent_loop (items : list (variable * string))
    (values_present : list string) : M bool :=
  match items with
  | [] => ret true
  | (var, value) :: rest =>
      if decide (String.length value ≠ var_length var) then ret false
      else if decide (value ∈ values_present) then ret false
      else
        let values_present := values_present ++ [value] in
        let* _ := consistent_neighbors var (elements (neighbors cw var)) in
        consistent_loop rest values_present
  end.

Definition consistent (assignment : Assignment) : M bool :=
  consistent_loop (map_to_list assignment) [].

(** [backtrack].  For an assignment that does not cover the domains yet,
    [select_unassigned_variable] is called; what it hands back (when it
    returns) is the list of the unassigned variables, and the head of the
    loop, [self.domains[var]], looks that list up in a dict.  Neither
    returns, so the loop body is never entered: its first statement that
    uses [var], [new_assignment[var] = value], would raise [TypeError] for
    the same reason, and a loop over no value would fall through to
    [return None]. *)
Definition backtrack (assignment : Assignment) : M (option Assignment) := λ st,
  if decide (size assignment = size (domains st))
  then ret (Some assignment) st
  else (let* var := select_unassigned_variable assignment in
        let* values := domains_getitem_list var in
        match elements values with
        | [] => ret None
        | value :: _ => raise TypeError
        end) st.

Definition solve : M (option Assignment) :=
  let* _ := enforce_node_consistency in
  let* _ := ac3 None in
  backtrack ∅.

(** ** Completeness test *)

(** What [assignment_complete] hands to [set.remove]: a slot or a word. *)
Inductive pyobject := PySlot (v : variable) | PyWord (w : string).

(** [variables.remove(o)] on a set of slots: [KeyError] when [o] is not an
    element of the set.  A word is never equal to a slot. *)
Definition set_remove (vars : gset variable) (o : pyobject) : M (gset variable) :=
  match o with
  | PySlot v => if decide (v ∈ vars) then ret (vars ∖ {[v]}) else raise KeyError
  | PyWord _ => raise KeyError
  end.

(** The loop of [assignment_complete], over [assignment.values()]: the
    words of the assignment are removed from the copy of the slots. *)
Fixpoint assignment_complete_loop (values : list string) (vars : gset variable)
    : M (gset variable) :=
  match values with
  | [] => ret vars
  | value :: rest =>
      let* vars := set_remove vars (PyWord value) in
      assignment_complete_loop rest vars
  end.

Definition assignment_complete (assignment : Assignment) : M bool :=
  let* vars := assignment_complete_loop (map_to_list assignment).*2 (variables cw) in
  ret (bool_decide (size vars = 0)).

End Solver.

(** ** The letter grid *)

(** The 2D array [letter_grid] builds: rows of cells, a cell is [None] or a
    character. *)
Abbreviation grid := (list (list (option ascii))).

(** [letters[i][j] = c]: [IndexError] when the row or the column is out of
    range. *)
Definition grid_setitem (letters : grid) (i j : nat) (c : ascii) : M grid :=
  match letters !! i with
  | None => raise IndexError
  | Some row =>
      if decide (j < length row)
      then ret (<[i := <[j := Some c]> row]> letters)
      else raise IndexError
  end.

(** The loop of [letter_grid] over [k in range(len(word))]; [ks] are the
    offsets still to write. *)
Fixpoint letter_grid_word (var : variable) (word : string) (ks : list nat)
    (letters : grid) : M grid :=
  match ks with
  | [] => ret letters
  | k :: rest =>
      let i := var_i var + (if decide (var_direction var = DOWN) then k else 0) in
      let j := var_j var + (if decide (var_direction var = ACROSS) then k else 0) in
      str_getitem word k (λ c,
        let* letters := grid_setitem letters i j c in
        letter_grid_word var word rest letters)
  end.

(** The loop over [assignment.items()]. *)
Fixpoint letter_grid_items (items : list (variable * string)) (letters : grid)
    : M grid :=
  match items with
  | [] => ret letters
  | (var, word) :: rest =>
      let* letters :=
        letter_grid_word var word (seq 0 (String.length word)) letters in
      letter_grid_items rest letters
  end.

(** [letter_grid]; [height] and [width] are the two attributes of the
    crossword object that it reads. *)
Definition letter_grid (height width : nat) (assignment : Assignment) : M grid :=
  letter_grid_items (map_to_list assignment)
                    (replicate height (replicate width None)).

(** ** Example crosswords *)

Module Examples.

Definition across : variable := mkVariable 0 0 ACROSS 3.
Definition down : variable := mkVariable 0 1 DOWN 3.

(** One across slot of length 3, two words. *)
Definition single : Crossword :=
  mkCrossword {[across]} {["CAT"; "DOG"]} ∅.

(** An across and a down slot of length 3, crossing at row 0, column 1. *)
Definition crossing (ws : gset string) : Crossword :=
  mkCrossword {[across; down]} ws
    (<[(across, down) := Some (1, 0)]> (<[(down, across) := Some (0, 1)]> ∅)).

Definition crossing3 : Crossword := crossing {["CAT"; "ARC"; "TEA"]}.


(** The crossing with a word that fits neither slot. *)
Definition crossing_mixed : Crossword :=
  crossing {["CAT"; "ARC"; "TEA"; "AT"]}.

(** CAT across, ARC down: the one solution of [crossing3]. *)
Definition cat_arc : Assignment :=
  <[across := "CAT"]> (<[down := "ARC"]> ∅).


End Examples.

(** * Specification vocabulary *)

(** ** Observations of a state *)

(** The words of a slot's domain; empty for a slot the dict does not hold. *)
Definition domain_words (st : creator) (x : variable) : gset string :=
  default ∅ (domain_of st x).

(** Later state [st'] holds the same dict as [st] and each set object holds
    a subset of what it held. *)
Definition shrinks (st st' : creator) : Prop :=
  domains st' = domains st ∧ Forall2 (⊆) (heap st') (heap st).

(** Only the set object bound to [x] differs between [st] and [st']. *)
Definition only_changes (x : variable) (st st' : creator) : Prop :=
  domains st' = domains st ∧
  length (heap st') = length (heap st) ∧
  ∀ l, domains st !! x ≠ Some l → heap st' !! l = heap st !! l.

(** Every reference of the dict points into the heap. *)
Definition allocated (st : creator) : Prop :=
  map_Forall (λ _ l, l < length (heap st)) (domains st).

#[global] Instance allocated_dec st : Decision (allocated st).
Proof. unfold allocated. apply _. Defined.

(** The shape [__init__] gives to a creator and every method keeps: the dict
    has the crossword's variables as keys, its references are allocated, and
    no two variables share a set object. *)
Definition wf_store (cw : Crossword) (st : creator) : Prop :=
  dom (domains st) = variables cw ∧
  allocated st ∧
  ∀ x y l, domains st !! x = Some l → domains st !! y = Some l → x = y.

(** Every word of every domain has the length of its slot. *)
Definition node_consistent (st : creator) : Prop :=
  ∀ x d w, domain_of st x = Some d → w ∈ d → String.length w = var_length x.

(** Words [v] and [w] hold the same character at offsets [i] and [j]. *)
Definition agree (i j : nat) (v w : string) : Prop :=
  ∃ c, String.get i v = Some c ∧ String.get j w = Some c.

#[global] Instance agree_dec i j v w : Decision (agree i j v w).
Proof.
  unfold agree.
  destruct (String.get i v) as [a|]; [|right; intros (c & [=] & _)].
  destruct (String.get j w) as [b|]; [|right; intros (c & _ & [=])].
  destruct (decide (a = b)) as [->|Hne].
  - left. by exists b.
  - right. intros (c & [= ->] & [= ->]). by apply Hne.
Defined.

(** The words of [dx] that some word of [dy] agrees with. *)
Definition supported (i j : nat) (dy dx : gset string) : gset string :=
  filter (λ v, set_Exists (agree i j v) dy) dx.

(** ** Properties of computations *)

(** [R] relates the state before a computation to the state after it,
    whatever the outcome. *)
Definition always {A} (R : relation creator) (m : M A) : Prop :=
  ∀ st, R st (m st).2.

(** The computation leaves the state as it is. *)
Definition pure {A} (m : M A) : Prop := ∀ st, (m st).2 = st.

(** The computation never reports that it ran out of fuel. *)
Definition terminates {A} (m : M A) : Prop := ∀ st, (m st).1 ≠ OutOfFuel.

(** ** What the loops remove *)

(** The words of [vs] that no word of [dy] agrees with. *)
Definition unsupported (i j : nat) (dy : gset string) (vs : list string)
    : list string :=
  filter (λ v, ¬ set_Exists (agree i j v) dy) vs.

(** The words of [vs] whose length is not the length of [var]. *)
Definition wrong_length (var : variable) (vs : list string) : list string :=
  filter (λ v, var_length var ≠ String.length v) vs.

(** ** Checking a concrete crossword *)

(** A decidable form of [wf_crossword], for concrete crosswords. *)
Definition wf_crossword_check (cw : Crossword) : Prop :=
  dom (overlaps cw) =
    list_to_set (filter (λ p, p.1 ≠ p.2)
      (cprod (elements (variables cw)) (elements (variables cw)))) ∧
  map_Forall (λ k o,
    ∀ i j, o = Some (i, j) →
      overlaps cw !! (k.2, k.1) = Some (Some (j, i)) ∧
      i < var_length k.1 ∧ j < var_length k.2) (overlaps cw).

#[global] Instance wf_crossword_check_dec cw : Decision (wf_crossword_check cw).
Proof.
  apply and_dec; [apply _|]. apply map_Forall_dec. intros k [[i j]|].
  - destruct (decide (overlaps cw !! (k.2, k.1) = Some (Some (j, i)) ∧
                      i < var_length k.1 ∧ j < var_length k.2)) as [H|H].
    + left. by intros ?? [= <- <-].
    + right. intros H'. by apply H, H'.
  - left. by intros.
Defined.

(** ** Arc consistency *)

(** Every word of [x]'s domain agrees with a word of [y]'s domain. *)
Definition arc_ok (st : creator) (x y : variable) (i j : nat) : Prop :=
  ∀ v, v ∈ domain_words st x → ∃ w, w ∈ domain_words st y ∧ agree i j v w.

(** Every arc of the crossword is consistent. *)
Definition arc_consistent (cw : Crossword) (st : creator) : Prop :=
  ∀ x y i j, overlaps cw !! (x, y) = Some (Some (i, j)) → arc_ok st x y i j.

(** The invariant of the loop: an arc is in the worklist or consistent. *)
Definition pending_or_ok (cw : Crossword) (arcs : list (variable * variable))
    (st : creator) : Prop :=
  ∀ x y i j, overlaps cw !! (x, y) = Some (Some (i, j)) →
             (x, y) ∈ arcs ∨ arc_ok st x y i j.

(** ** Assignments *)

(** No word is used for two slots. *)
Definition distinct_words (a : Assignment) : Prop :=
  ∀ x y w, a !! x = Some w → a !! y = Some w → x = y.

(** Every slot filled holds a word of its length. *)
Definition fits_lengths (a : Assignment) : Prop :=
  ∀ x w, a !! x = Some w → String.length w = var_length x.

(** Two words on overlapping slots agree at the overlap. *)
Definition respects_overlaps (cw : Crossword) (a : Assignment) : Prop :=
  ∀ x y i j v w, overlaps cw !! (x, y) = Some (Some (i, j)) →
    a !! x = Some v → a !! y = Some w → agree i j v w.

(** The conditions of the crossword on the slots an assignment fills (the
    spec's consistent assignment); its keys are slots. *)
Definition satisfies_constraints (cw : Crossword) (a : Assignment) : Prop :=
  dom a ⊆ variables cw ∧ distinct_words a ∧ fits_lengths a ∧
  respects_overlaps cw a.

(** The assignment gives a word to every slot. *)
Definition complete (cw : Crossword) (a : Assignment) : Prop :=
  ∀ x, x ∈ variables cw → is_Some (a !! x).

(** A solution of the crossword. *)
Definition valid_assignment (cw : Crossword) (a : Assignment) : Prop :=
  complete cw a ∧ distinct_words a ∧ fits_lengths a ∧ respects_overlaps cw a.

(** A decidable form of [satisfies_constraints], for concrete assignments. *)
Definition satisfies_constraints_check (cw : Crossword) (a : Assignment) : Prop :=
  dom a ⊆ variables cw ∧
  NoDup (map_to_list a).*2 ∧
  map_Forall (λ x w, String.length w = var_length x) a ∧
  map_Forall (λ k o,
    ∀ i j v w, o = Some (i, j) → a !! k.1 = Some v → a !! k.2 = Some w →
               agree i j v w) (overlaps cw).

#[global] Instance satisfies_constraints_check_dec cw a :
  Decision (satisfies_constraints_check cw a).
Proof.
  apply and_dec; [apply _|]. apply and_dec; [apply _|].
  apply and_dec; [apply _|]. apply map_Forall_dec. intros k [[i j]|].
  - destruct (a !! k.1) as [v|]; [|left; by intros].
    destruct (a !! k.2) as [w|]; [|left; by intros].
    destruct (decide (agree i j v w)) as [H|H].
    + left. by intros ???? [= <- <-] [= <-] [= <-].
    + right. intros H'. by apply H, (H' i j v w).
  - left. by intros.
Defined.

(** Every word of the assignment is in the domain of its slot. *)
Definition in_domains (st : creator) (a : Assignment) : Prop :=
  ∀ x w, a !! x = Some w → w ∈ domain_words st x.

(** No slot the assignment fills has a neighbor. *)
Definition no_crossing (cw : Crossword) (a : Assignment) : Prop :=
  ∀ x, is_Some (a !! x) → neighbors cw x = ∅.

(** ** Node consistency *)

(** The words of [d] that have the length of [var]. *)
Definition fitting (var : variable) (d : gset string) : gset string :=
  filter (λ w, String.length w = var_length var) d.

(** ** Cells of the grid *)

(** The cell that holds the character at offset [k] of a slot. *)
Definition cell (var : variable) (k : nat) : nat * nat :=
  match var_direction var with
  | ACROSS => (var_i var, var_j var + k)
  | DOWN => (var_i var + k, var_j var)
  end.

(** The content of cell [(i, j)] of a grid, when the cell is in range. *)
Definition grid_get (letters : grid) (i j : nat) : option (option ascii) :=
  row ← letters !! i; row !! j.

(** The offset at which a slot runs through cell [(i, j)], if it does. *)
Definition offset (var : variable) (i j : nat) : option nat :=
  match var_direction var with
  | ACROSS => if decide (i = var_i var ∧ var_j var ≤ j)
              then Some (j - var_j var) else None
  | DOWN => if decide (j = var_j var ∧ var_i var ≤ i)
            then Some (i - var_i var) else None
  end.

(** The character a word placed on a slot puts in cell [(i, j)], if any. *)
Definition letter_at (var : variable) (word : string) (i j : nat) : option ascii :=
  k ← offset var i j; String.get k word.

(** A grid of [height] rows of [width] cells. *)
Definition grid_shape (height width : nat) (letters : grid) : Prop :=
  length letters = height ∧ Forall (λ row, length row = width) letters.

(** The character left in cell [(i, j)] once the words of [items] were
    written one after the other: the last one that covers the cell wins. *)
Fixpoint written (items : list (variable * string)) (i j : nat) : option ascii :=
  match items with
  | [] => None
  | (var, word) :: rest =>
      match written rest i j with
      | Some c => Some c
      | None => letter_at var word i j
      end
  end.

(** Every cell of every word of the assignment lies inside the grid. *)
Definition fits_grid (height width : nat) (a : Assignment) : Prop :=
  ∀ var word k, a !! var = Some word → k < String.length word →
    (cell var k).1 < height ∧ (cell var k).2 < width.

(** Two words of the assignment that cover the same cell hold the same
    character there. *)
Definition crossings_agree (a : Assignment) : Prop :=
  ∀ x y v w i j c d, a !! x = Some v → a !! y = Some w →
    letter_at x v i j = Some c → letter_at y w i j = Some d → c = d.

(** Decides a closed decidable proposition by evaluation. *)
Ltac decide_by_compute :=
  refine (bool_decide_unpack _ _); vm_compute; exact I.

(** * Properties *)

(** ** Reasoning about computations *)

Lemma bind_Return {A B} (m : M A) (k : A → M B) st b st' :
  bind m k st = (Return b, st') →
  ∃ a st1, m st = (Return a, st1) ∧ k a st1 = (Return b, st').
Proof.
  unfold bind. destruct (m st) as [[a|e|] st1]; intros H; try discriminate.
  by exists a, st1.
Qed.

Lemma pure_always {A} (R : relation creator) `{!Reflexive R} (m : M A) :
  pure m → always R m.
Proof. intros Hm st. by rewrite Hm. Qed.

Lemma pure_ret {A} (a : A) : pure (ret a).
Proof. done. Qed.

Lemma pure_raise {A} e : pure (raise (A:=A) e).
Proof. done. Qed.

Lemma pure_bind {A B} (m : M A) (k : A → M B) :
  pure m → (∀ a, pure (k a)) → pure (bind m k).
Proof.
  intros Hm Hk st. unfold bind. specialize (Hm st).
  destruct (m st) as [[a|e|] st1]; simpl in *; subst; [apply Hk|done..].
Qed.

Lemma always_bind {A B} (R : relation creator) `{!Transitive R}
    (m : M A) (k : A → M B) :
  always R m → (∀ a, always R (k a)) → always R (bind m k).
Proof.
  intros Hm Hk st. unfold bind. specialize (Hm st).
  destruct (m st) as [[a|e|] st1]; simpl in *; [|done..].
  etrans; [done|apply Hk].
Qed.

Lemma heap_subseteq_refl (h : list (gset string)) : Forall2 (⊆) h h.
Proof. induction h; constructor; done. Qed.

#[global] Instance shrinks_preorder : PreOrder shrinks.
Proof.
  split.
  - intros st. split; [done|]. apply heap_subseteq_refl.
  - intros st1 st2 st3 [Hd1 Hh1] [Hd2 Hh2]. split; [congruence|].
    by etrans.
Qed.

#[global] Instance only_changes_preorder x : PreOrder (only_changes x).
Proof.
  split.
  - by intros st.
  - intros st1 st2 st3 (Hd1 & Hl1 & Hh1) (Hd2 & Hl2 & Hh2).
    split; [congruence|]. split; [congruence|].
    intros l Hl. rewrite Hh2, Hh1; [done..|congruence].
Qed.

Lemma shrinks_total st st' : shrinks st st' → total (heap st') ≤ total (heap st).
Proof.
  intros [_ H]. unfold total. induction H as [|a b h' h Hab _ IH]; simpl; [done|].
  apply subseteq_size in Hab. lia.
Qed.

Lemma shrinks_domain_words st st' x :
  shrinks st st' → domain_words st' x ⊆ domain_words st x.
Proof.
  intros [Hd Hh]. unfold domain_words, domain_of. rewrite Hd.
  destruct (domains st !! x) as [l|]; simpl; [|done].
  destruct (heap st' !! l) as [s'|] eqn:Hs'; simpl; [|set_solver].
  destruct (Forall2_lookup_l _ _ _ _ _ Hh Hs') as (s & -> & Hsub). done.
Qed.

Lemma shrinks_allocated st st' : shrinks st st' → allocated st → allocated st'.
Proof.
  intros [Hd Hh]. unfold allocated. rewrite Hd, (Forall2_length _ _ _ Hh). done.
Qed.

Lemma shrinks_wf_store cw st st' :
  shrinks st st' → wf_store cw st → wf_store cw st'.
Proof.
  intros Hs (H1 & H2 & H3). split_and!.
  - destruct Hs as [-> _]. done.
  - by eapply shrinks_allocated.
  - destruct Hs as [-> _]. done.
Qed.

Lemma shrinks_node_consistent st st' :
  shrinks st st' → allocated st → node_consistent st → node_consistent st'.
Proof.
  intros [Hd Hh] Ha Hn x d' w Hx Hw. unfold domain_of in *. rewrite Hd in Hx.
  destruct (domains st !! x) as [l|] eqn:Hl; simpl in *; [|done].
  destruct (Forall2_lookup_l _ _ _ _ _ Hh Hx) as (d & Hd' & Hsub).
  apply (Hn x d w); [unfold domain_of; by rewrite Hl|set_solver].
Qed.

(** ** The primitive operations *)

Lemma pure_domains_getitem x : pure (domains_getitem x).
Proof. intros st. unfold domains_getitem. by destruct (domain_of st x). Qed.

Lemma domains_getitem_Return x st d st' :
  domains_getitem x st = (Return d, st') → st' = st ∧ domain_of st x = Some d.
Proof.
  unfold domains_getitem. destruct (domain_of st x); intros [=]; by subst.
Qed.

Lemma domains_remove_Return x value st st' :
  domains_remove x value st = (Return (), st') →
  ∃ l s, domains st !! x = Some l ∧ heap st !! l = Some s ∧ value ∈ s ∧
         st' = mkCreator (domains st) (<[l := s ∖ {[value]}]> (heap st)).
Proof.
  unfold domains_remove.
  destruct (domains st !! x) as [l|]; [|done].
  destruct (heap st !! l) as [s|] eqn:Hs; [|done].
  destruct (decide (value ∈ s)); intros [=]. subst. by exists l, s.
Qed.

Lemma domains_remove_shrinks x value : always shrinks (domains_remove x value).
Proof.
  intros st. unfold domains_remove.
  destruct (domains st !! x) as [l|]; [|done].
  destruct (heap st !! l) as [s|] eqn:Hs; [|done].
  destruct (decide (value ∈ s)); [|done]. split; [done|]. simpl.
  rewrite <-(list_insert_id (heap st) l s) at 2 by done.
  apply Forall2_insert; [|set_solver]. apply heap_subseteq_refl.
Qed.

Lemma domains_remove_only_changes x value :
  always (only_changes x) (domains_remove x value).
Proof.
  intros st. unfold domains_remove.
  destruct (domains st !! x) as [l|] eqn:Hl; [|done].
  destruct (heap st !! l) as [s|] eqn:Hs; [|done].
  destruct (decide (value ∈ s)); [|done]. split; [done|]. simpl.
  split; [by rewrite length_insert|].
  intros l' Hl'. rewrite list_lookup_insert_ne; [done|congruence].
Qed.

Lemma total_insert_lt h l (s s' : gset string) :
  h !! l = Some s → size s' < size s → total (<[l := s']> h) < total h.
Proof.
  unfold total. revert l. induction h as [|a h IH]; intros [|l] Hl Hlt;
    simplify_eq/=; [lia|].
  specialize (IH l Hl Hlt). lia.
Qed.

Lemma domains_remove_total x value st st' :
  domains_remove x value st = (Return (), st') →
  total (heap st') < total (heap st).
Proof.
  intros (l & s & Hl & Hs & Hin & ->)%domains_remove_Return. simpl.
  eapply total_insert_lt; [done|]. apply subset_size. set_solver.
Qed.

(** ** revise *)

Lemma pure_has_valid_y v i j ys : pure (has_valid_y v i j ys).
Proof.
  induction ys as [|w ys IH]; simpl; [apply pure_ret|]. unfold str_getitem.
  destruct (String.get i v); [|apply pure_raise].
  destruct (String.get j w); [|apply pure_raise].
  destruct (decide _); [apply pure_ret|done].
Qed.

Lemma has_valid_y_Return v i j ys st b st' :
  has_valid_y v i j ys st = (Return b, st') →
  st' = st ∧ (b = true ↔ ∃ w, w ∈ ys ∧ agree i j v w).
Proof.
  induction ys as [|w ys IH]; simpl.
  - intros [= <- <-]. split; [done|]. split; [done|]. intros (w & Hw & _).
    by apply elem_of_nil in Hw.
  - unfold str_getitem.
    destruct (String.get i v) as [a|] eqn:Ha; [|done].
    destruct (String.get j w) as [b'|] eqn:Hb; [|done].
    destruct (decide (a = b')) as [->|Hne].
    + intros [= <- <-]. split; [done|]. split; [|done]. intros _.
      exists w. split; [left|]. by exists b'.
    + intros H. destruct (IH H) as [-> Hiff]. split; [done|].
      rewrite Hiff. split.
      * intros (w' & Hw' & Hag). exists w'. split; [by right|done].
      * intros (w' & Hw' & Hag). apply elem_of_cons in Hw' as [->|Hw'].
        -- destruct Hag as (c & Hc1 & Hc2). congruence.
        -- by exists w'.
Qed.

Lemma has_valid_y_total v i j ys st :
  is_Some (String.get i v) → (∀ w, w ∈ ys → is_Some (String.get j w)) →
  ∃ b, has_valid_y v i j ys st = (Return b, st).
Proof.
  intros [a Ha] Hys. induction ys as [|w ys IH]; simpl; [by exists false|].
  unfold str_getitem. rewrite Ha.
  destruct (Hys w) as [b Hb]; [left|]. rewrite Hb.
  destruct (decide (a = b)); [by exists true|].
  apply IH. intros w' Hw'. apply Hys. by right.
Qed.

Lemma supported_elements i j dy dx :
  dx ∖ list_to_set (unsupported i j dy (elements dx)) = supported i j dy dx.
Proof.
  apply set_eq. intros v. unfold supported, unsupported.
  rewrite elem_of_difference, elem_of_list_to_set, list_elem_of_filter,
    elem_of_elements, elem_of_filter.
  destruct (decide (set_Exists (agree i j v) dy)); naive_solver.
Qed.

Lemma supported_subseteq i j dy dx : supported i j dy dx ⊆ dx.
Proof. unfold supported. set_solver. Qed.

Lemma unsupported_nil i j dy dx :
  unsupported i j dy (elements dx) = [] ↔ supported i j dy dx = dx.
Proof.
  rewrite <-supported_elements. split.
  - intros ->. set_solver.
  - intros Heq. destruct (unsupported i j dy (elements dx)) as [|v l] eqn:Hu;
      [done|exfalso].
    assert (v ∈ unsupported i j dy (elements dx)) as Hv by (rewrite Hu; left).
    unfold unsupported in Hv. apply list_elem_of_filter in Hv as [_ Hv].
    apply elem_of_elements in Hv. rewrite <-Heq in Hv.
    apply elem_of_difference in Hv as [_ Hv]. apply Hv.
    apply elem_of_list_to_set. left.
Qed.

Section Revise.

Variable cw : Crossword.

Lemma revise_loop_Return x y i j lx ly dy vs : ∀ result st cur r st',
  domains st !! x = Some lx → domains st !! y = Some ly → lx ≠ ly →
  heap st !! lx = Some cur → heap st !! ly = Some dy →
  revise_loop x y i j vs result st = (Return r, st') →
  st' = mkCreator (domains st)
          (<[lx := cur ∖ list_to_set (unsupported i j dy vs)]> (heap st)) ∧
  r = result || bool_decide (unsupported i j dy vs ≠ []).
Proof.
  induction vs as [|v vs IH]; intros result st cur r st' Hx Hy Hne Hcur Hdy; simpl.
  - intros [= <- <-]. split; [|by rewrite orb_false_r].
    rewrite difference_empty_L, list_insert_id by done. by destruct st.
  - intros (ys & st1 & Hget & H)%bind_Return.
    apply domains_getitem_Return in Hget as [-> Hys].
    unfold domain_of in Hys. rewrite Hy in Hys. simpl in Hys.
    rewrite Hdy in Hys. injection Hys as <-.
    apply bind_Return in H as (b & st1 & Hb & H).
    apply has_valid_y_Return in Hb as [-> Hb].
    assert (b = true ↔ set_Exists (agree i j v) dy) as Hb'.
    { rewrite Hb. unfold set_Exists. by setoid_rewrite elem_of_elements. }
    destruct b.
    + apply (IH _ _ cur) in H as [-> ->]; [|done..].
      unfold unsupported. rewrite filter_cons_False by (intros Hn; by apply Hn, Hb').
      done.
    + apply bind_Return in H as ([] & st1 & Hrm & H).
      apply domains_remove_Return in Hrm as (l & s & Hl & Hs & Hin & ->).
      assert (l = lx) as -> by congruence. assert (s = cur) as -> by congruence.
      pose proof (lookup_lt_Some _ _ _ Hcur) as Hlt.
      apply (IH _ _ (cur ∖ {[v]})) in H as [-> ->]; simpl; try done.
      * unfold unsupported.
        rewrite filter_cons_True by (intros Hn; apply Hb' in Hn; done).
        rewrite list_insert_insert_eq. split.
        -- f_equal. f_equal. set_solver.
        -- rewrite bool_decide_eq_true_2 by done. by rewrite orb_true_r.
      * by rewrite list_lookup_insert_eq.
      * by rewrite list_lookup_insert_ne.
Qed.

Lemma revise_Return_None x y st r st' :
  overlaps cw !! (x, y) = Some None →
  revise cw x y st = (r, st') → r = Return false ∧ st' = st.
Proof.
  unfold revise, bind, overlaps_getitem. intros ->. simpl. by intros [= <- <-].
Qed.

Lemma revise_Return_Some x y i j lx ly dx dy st r st' :
  overlaps cw !! (x, y) = Some (Some (i, j)) →
  domains st !! x = Some lx → domains st !! y = Some ly → lx ≠ ly →
  heap st !! lx = Some dx → heap st !! ly = Some dy →
  revise cw x y st = (Return r, st') →
  st' = mkCreator (domains st) (<[lx := supported i j dy dx]> (heap st)) ∧
  r = bool_decide (supported i j dy dx ≠ dx).
Proof.
  intros Ho Hx Hy Hne Hdx Hdy. unfold revise, overlaps_getitem.
  rewrite Ho. intros (o & st1 & [= <- <-] & H)%bind_Return.
  apply bind_Return in H as (d & st1 & Hget & H).
  apply domains_getitem_Return in Hget as [-> Hd].
  unfold domain_of in Hd. rewrite Hx in Hd. simpl in Hd.
  rewrite Hdx in Hd. injection Hd as <-.
  eapply revise_loop_Return in H as [-> ->]; [|done..].
  rewrite supported_elements. split; [done|]. simpl.
  apply bool_decide_ext. by rewrite unsupported_nil.
Qed.

Lemma revise_Return_overlap x y st r st' :
  revise cw x y st = (Return r, st') → is_Some (overlaps cw !! (x, y)).
Proof.
  unfold revise, overlaps_getitem, bind.
  destruct (overlaps cw !! (x, y)); [done|]. simpl. done.
Qed.

End Revise.

(** ** Well-formed crosswords and stores *)

Lemma wf_crossword_check_sound cw : wf_crossword_check cw → wf_crossword cw.
Proof.
  intros [Hdom Hall]. split.
  - intros x y. rewrite <-elem_of_dom, Hdom, elem_of_list_to_set,
      list_elem_of_filter, list_elem_of_cprod, !elem_of_elements. naive_solver.
  - intros x y i j Hxy. by apply (Hall _ _ Hxy i j).
  - intros x y i j Hxy. by apply (Hall _ _ Hxy i j).
Qed.

Lemma init_wf_store cw : wf_store cw (init cw).
Proof.
  unfold init. set (vars := elements (variables cw)).
  assert (∀ x l, (list_to_map (zip vars (seq 0 (length vars)))
                    : gmap variable nat) !! x = Some l →
                 vars !! l = Some x) as Hlook.
  { intros x l Hl. apply elem_of_list_to_map_2 in Hl.
    apply list_elem_of_lookup in Hl as [k Hk].
    apply lookup_zip_with_Some in Hk as (x' & l' & [= <- <-] & Hx & Hl').
    apply lookup_seq in Hl' as [-> _]. done. }
  split_and!; simpl.
  - rewrite dom_list_to_map_L, fst_zip by (by rewrite length_seq).
    apply list_to_set_elements_L.
  - intros x l Hl. simpl. rewrite length_replicate.
    eapply lookup_lt_Some, Hlook, Hl.
  - intros x y l Hx%Hlook Hy%Hlook. congruence.
Qed.

Lemma wf_store_lookup cw st x :
  wf_store cw st → x ∈ variables cw →
  ∃ l d, domains st !! x = Some l ∧ heap st !! l = Some d.
Proof.
  intros (Hdom & Hal & _) Hx. rewrite <-Hdom in Hx.
  apply elem_of_dom in Hx as [l Hl]. exists l.
  destruct (lookup_lt_is_Some_2 (heap st) l) as [d Hd]; [by apply (Hal x)|].
  by exists d.
Qed.

Lemma domain_of_lookup st x l d :
  domains st !! x = Some l → heap st !! l = Some d → domain_of st x = Some d.
Proof. intros Hl Hd. unfold domain_of. by rewrite Hl. Qed.

Lemma only_changes_domain_of cw st st' x z :
  wf_store cw st → only_changes x st st' → z ≠ x →
  domain_of st' z = domain_of st z.
Proof.
  intros (_ & _ & Hna) (Hd & _ & Hh) Hz. unfold domain_of. rewrite Hd.
  destruct (domains st !! z) as [l|] eqn:Hl; simpl; [|done].
  apply Hh. intros Hx. by apply Hz, (Hna z x l).
Qed.

(** ** revise, whatever its outcome *)

Section ReviseAlways.

Variable cw : Crossword.
Variable R : relation creator.
Context `{!PreOrder R}.
Variable x : variable.
Hypothesis R_remove : ∀ v, always R (domains_remove x v).

Lemma revise_loop_always y i j vs result :
  always R (revise_loop x y i j vs result).
Proof.
  revert result. induction vs as [|v vs IH]; intros result; simpl.
  - apply pure_always; [apply _|apply pure_ret].
  - apply always_bind; [apply _| |intros ys].
    { apply pure_always; [apply _|apply pure_domains_getitem]. }
    apply always_bind; [apply _| |intros b].
    { apply pure_always; [apply _|apply pure_has_valid_y]. }
    destruct b; [apply IH|].
    apply always_bind; [apply _|apply R_remove|intros _; apply IH].
Qed.

Lemma revise_always y : always R (revise cw x y).
Proof.
  unfold revise. apply always_bind; [apply _| |intros [[i j]|]].
  - apply pure_always; [apply _|]. intros st. unfold overlaps_getitem.
    by destruct (overlaps cw !! (x, y)).
  - apply always_bind; [apply _| |intros d; apply revise_loop_always].
    apply pure_always; [apply _|apply pure_domains_getitem].
  - apply pure_always; [apply _|apply pure_ret].
Qed.

End ReviseAlways.

Lemma revise_shrinks cw x y : always shrinks (revise cw x y).
Proof. apply revise_always; [apply _|apply domains_remove_shrinks]. Qed.

Lemma revise_only_changes cw x y : always (only_changes x) (revise cw x y).
Proof. apply revise_always; [apply _|apply domains_remove_only_changes]. Qed.

Lemma revise_loop_total_lt x y i j vs : ∀ result st r st',
  revise_loop x y i j vs result st = (Return r, st') → r = true →
  result = true ∨ total (heap st') < total (heap st).
Proof.
  induction vs as [|v vs IH]; intros result st r st'; simpl.
  - intros [= <- <-] ->. by left.
  - intros (ys & st1 & Hget & H)%bind_Return Hr.
    apply domains_getitem_Return in Hget as [-> _].
    apply bind_Return in H as (b & st1 & Hb & H).
    apply has_valid_y_Return in Hb as [-> _].
    destruct b; [by eapply IH|]. right.
    apply bind_Return in H as ([] & st1 & Hrm & H).
    apply domains_remove_total in Hrm.
    pose proof (revise_loop_always shrinks x (domains_remove_shrinks x)
                  y i j vs true st1) as Hs.
    rewrite H in Hs. apply shrinks_total in Hs. simpl in Hs. lia.
Qed.

Lemma revise_total_lt cw x y st st' :
  revise cw x y st = (Return true, st') → total (heap st') < total (heap st).
Proof.
  unfold revise. intros (o & st1 & Ho & H)%bind_Return.
  assert (st1 = st) as ->.
  { unfold overlaps_getitem in Ho. destruct (overlaps cw !! (x, y)); [|done].
    by injection Ho. }
  destruct o as [[i j]|]; [|done].
  apply bind_Return in H as (d & st1 & Hget & H).
  apply domains_getitem_Return in Hget as [-> _].
  by destruct (revise_loop_total_lt _ _ _ _ _ _ _ _ _ H eq_refl).
Qed.

(** ** Node consistency *)

Lemma domains_remove_ok x v st l s :
  domains st !! x = Some l → heap st !! l = Some s → v ∈ s →
  domains_remove x v st =
    (Return (), mkCreator (domains st) (<[l := s ∖ {[v]}]> (heap st))).
Proof.
  intros Hl Hs Hv. unfold domains_remove. rewrite Hl, Hs.
  by rewrite decide_True.
Qed.

Lemma enforce_node_values_ok var l vs : ∀ st cur,
  domains st !! var = Some l → heap st !! l = Some cur →
  NoDup vs → (∀ v, v ∈ vs → v ∈ cur) →
  enforce_node_values var vs st =
    (Return (), mkCreator (domains st)
       (<[l := cur ∖ list_to_set (wrong_length var vs)]> (heap st))).
Proof.
  induction vs as [|v vs IH]; intros st cur Hl Hcur Hnd Hin; simpl.
  - unfold ret. rewrite difference_empty_L, list_insert_id by done.
    by destruct st.
  - apply NoDup_cons in Hnd as [Hv Hnd]. unfold bind, wrong_length.
    destruct (decide (var_length var ≠ String.length v)) as [Hne|Heq].
    + rewrite (domains_remove_ok var v st l cur), filter_cons_True by
        (done || apply Hin; left).
      pose proof (lookup_lt_Some _ _ _ Hcur) as Hlt.
      rewrite (IH _ (cur ∖ {[v]})); simpl; [|done| |done|].
      * rewrite list_insert_insert_eq. do 3 f_equal. set_solver.
      * by rewrite list_lookup_insert_eq.
      * intros w Hw. apply elem_of_difference. split; [apply Hin; by right|].
        intros ->%elem_of_singleton. done.
    + unfold ret. rewrite filter_cons_False by done.
      apply IH; [done..|]. intros w Hw. apply Hin. by right.
Qed.

Lemma enforce_node_vars_ok vars : ∀ st,
  allocated st → (∀ x, x ∈ vars → is_Some (domains st !! x)) →
  ∃ st', enforce_node_vars vars st = (Return (), st') ∧ shrinks st st' ∧
         ∀ x d w, x ∈ vars → domain_of st' x = Some d → w ∈ d →
                  String.length w = var_length x.
Proof.
  induction vars as [|x vars IH]; intros st Hal Hdom; simpl.
  - exists st. split; [done|]. split; [done|]. intros x d w Hx.
    by apply elem_of_nil in Hx.
  - destruct (Hdom x) as [l Hl]; [left|].
    destruct (lookup_lt_is_Some_2 (heap st) l) as [cur Hcur]; [by apply (Hal x)|].
    unfold bind at 1. unfold domains_getitem.
    rewrite (domain_of_lookup st x l cur) by done.
    unfold bind at 1.
    rewrite (enforce_node_values_ok x l _ st cur)
      by (done || apply NoDup_elements || by setoid_rewrite elem_of_elements).
    set (st1 := mkCreator _ _).
    assert (shrinks st st1) as Hs1.
    { split; [done|]. simpl.
      rewrite <-(list_insert_id (heap st) l cur) at 2 by done.
      apply Forall2_insert; [apply heap_subseteq_refl|set_solver]. }
    destruct (IH st1) as (st' & Hrun & Hs & Hok).
    { by eapply shrinks_allocated. }
    { intros z Hz. simpl. apply Hdom. by right. }
    exists st'. split; [done|]. split; [by etrans|].
    intros z d w Hz Hd Hw. apply elem_of_cons in Hz as [->|Hz]; [|by eapply Hok].
    pose proof (shrinks_domain_words _ _ x Hs) as Hsub.
    unfold domain_words in Hsub. rewrite Hd in Hsub.
    rewrite (domain_of_lookup st1 x l (cur ∖ list_to_set
               (wrong_length x (elements cur)))) in Hsub; simpl; [|done|].
    + apply Hsub in Hw. simpl in Hw. apply elem_of_difference in Hw as [Hw1 Hw2].
      destruct (decide (var_length x = String.length w)) as [|Hne]; [done|].
      exfalso. apply Hw2. apply elem_of_list_to_set. unfold wrong_length.
      apply list_elem_of_filter. split; [done|]. by apply elem_of_elements.
    + apply list_lookup_insert_eq. by eapply lookup_lt_Some.
Qed.

Lemma enforce_node_consistency_ok st :
  allocated st →
  ∃ st', enforce_node_consistency st = (Return (), st') ∧ shrinks st st' ∧
         node_consistent st'.
Proof.
  intros Hal. unfold enforce_node_consistency.
  destruct (enforce_node_vars_ok (map_to_list (domains st)).*1 st)
    as (st' & Hrun & Hs & Hok); [done| |].
  { intros x (p & -> & Hp)%list_elem_of_fmap. destruct p as [x l].
    apply elem_of_map_to_list in Hp. by exists l. }
  exists st'. split; [done|]. split; [done|].
  intros x d w Hd Hw. apply (Hok x d w); [|done..].
  unfold domain_of in Hd. destruct Hs as [Hdm _]. rewrite Hdm in Hd.
  destruct (domains st !! x) as [l|] eqn:Hl; [|done].
  apply list_elem_of_fmap. exists (x, l). split; [done|].
  by apply elem_of_map_to_list.
Qed.

(** C8.  After [enforce_node_consistency] every word left in the domain of a
    slot has the length of the slot; the call returns normally on every
    creator (one whose references are allocated, as all are). *)
Theorem enforce_node_consistency_sound st :
  allocated st →
  ∃ st', enforce_node_consistency st = (Return (), st') ∧
    ∀ S d W, domain_of st' S = Some d → W ∈ d →
             String.length W = var_length S.
Proof.
  intros Hal. destruct (enforce_node_consistency_ok st Hal) as (st' & H & _ & Hn).
  exists st'. split; [done|]. exact Hn.
Qed.

(** ** revise returns on node-consistent domains *)

Lemma string_get_is_Some (s : string) k :
  k < String.length s → is_Some (String.get k s).
Proof.
  revert k. induction s as [|c s IH]; intros k; simpl; [lia|].
  destruct k as [|k]; [by eexists|]. intros Hk. apply IH. lia.
Qed.

Lemma revise_loop_returns x y i j lx ly dy vs : ∀ result st cur,
  domains st !! x = Some lx → domains st !! y = Some ly → lx ≠ ly →
  heap st !! lx = Some cur → heap st !! ly = Some dy →
  NoDup vs → (∀ v, v ∈ vs → v ∈ cur) →
  (∀ v, v ∈ vs → is_Some (String.get i v)) →
  (∀ w, w ∈ dy → is_Some (String.get j w)) →
  ∃ r st', revise_loop x y i j vs result st = (Return r, st').
Proof.
  induction vs as [|v vs IH];
    intros result st cur Hx Hy Hne Hcur Hdy Hnd Hin Hi Hj; simpl.
  - by exists result, st.
  - apply NoDup_cons in Hnd as [Hv Hnd]. unfold bind at 1, domains_getitem.
    rewrite (domain_of_lookup st y ly dy) by done. unfold bind at 1.
    destruct (has_valid_y_total v i j (elements dy) st) as [b ->].
    { apply Hi. left. }
    { intros w Hw. apply Hj. by apply elem_of_elements. }
    destruct b.
    + apply (IH _ _ cur); try done; intros w Hw; [apply Hin|apply Hi]; by right.
    + unfold bind at 1.
      rewrite (domains_remove_ok x v st lx cur) by (done || apply Hin; left).
      pose proof (lookup_lt_Some _ _ _ Hcur) as Hlt.
      apply (IH _ _ (cur ∖ {[v]})); simpl; try done.
      * by rewrite list_lookup_insert_eq.
      * by rewrite list_lookup_insert_ne.
      * intros w Hw. apply elem_of_difference. split; [apply Hin; by right|].
        intros ->%elem_of_singleton. done.
      * intros w Hw. apply Hi. by right.
Qed.

Lemma domain_words_lookup st x l d :
  domains st !! x = Some l → heap st !! l = Some d → domain_words st x = d.
Proof.
  intros Hl Hd. unfold domain_words. by rewrite (domain_of_lookup st x l d).
Qed.

(** What a call of [revise] that returns has done, on a well-formed store,
    for two slots that overlap. *)
Lemma revise_Return_wf cw x y i j st r st' :
  wf_store cw st → overlaps cw !! (x, y) = Some (Some (i, j)) →
  x ∈ variables cw → y ∈ variables cw → x ≠ y →
  revise cw x y st = (Return r, st') →
  domain_words st' x = supported i j (domain_words st y) (domain_words st x) ∧
  (∀ z, z ≠ x → domain_of st' z = domain_of st z) ∧
  r = bool_decide (domain_words st' x ≠ domain_words st x) ∧
  wf_store cw st'.
Proof.
  intros Hwf Ho Hx Hy Hne Hrun.
  destruct (wf_store_lookup cw st x Hwf Hx) as (lx & dx & Hlx & Hdx).
  destruct (wf_store_lookup cw st y Hwf Hy) as (ly & dy & Hly & Hdy).
  assert (lx ≠ ly) as Hl.
  { intros ->. destruct Hwf as (_ & _ & Hna). by apply Hne, (Hna x y ly). }
  pose proof (revise_shrinks cw x y st) as Hs.
  pose proof (revise_only_changes cw x y st) as Hoc.
  rewrite Hrun in Hs, Hoc. simpl in Hs, Hoc.
  destruct (revise_Return_Some cw x y i j lx ly dx dy st r st') as [-> ->];
    [done..|].
  rewrite (domain_words_lookup st x lx dx), (domain_words_lookup st y ly dy)
    by done.
  assert (domain_words
            (mkCreator (domains st) (<[lx:=supported i j dy dx]> (heap st))) x
          = supported i j dy dx) as Hnew.
  { apply (domain_words_lookup _ _ lx); simpl; [done|].
    apply list_lookup_insert_eq. by eapply lookup_lt_Some. }
  rewrite Hnew. split; [done|]. split; [|split; [done|]].
  - intros z Hz. by eapply only_changes_domain_of.
  - by eapply shrinks_wf_store.
Qed.

(** On node-consistent domains [revise] returns for every two distinct slots
    of a well-formed crossword. *)
Lemma revise_returns cw st x y :
  wf_crossword cw → wf_store cw st → node_consistent st →
  x ∈ variables cw → y ∈ variables cw → x ≠ y →
  ∃ r st', revise cw x y st = (Return r, st').
Proof.
  intros Hcw Hwf Hnc Hx Hy Hne.
  destruct (wf_keys cw Hcw x y) as [_ [o Ho]]; [done|].
  unfold revise, overlaps_getitem. rewrite Ho. unfold bind at 1. simpl.
  destruct o as [[i j]|]; [|by exists false, st].
  destruct (wf_store_lookup cw st x Hwf Hx) as (lx & dx & Hlx & Hdx).
  destruct (wf_store_lookup cw st y Hwf Hy) as (ly & dy & Hly & Hdy).
  destruct (wf_bounds cw Hcw x y i j Ho) as [Hi Hj].
  unfold bind at 1, domains_getitem.
  rewrite (domain_of_lookup st x lx dx) by done.
  apply (revise_loop_returns x y i j lx ly dy _ _ _ dx); try done.
  - intros ->. destruct Hwf as (_ & _ & Hna). by apply Hne, (Hna x y ly).
  - apply NoDup_elements.
  - by setoid_rewrite elem_of_elements.
  - intros v Hv%elem_of_elements. apply string_get_is_Some.
    by rewrite (Hnc x dx v (domain_of_lookup _ _ _ _ Hlx Hdx) Hv).
  - intros w Hw. apply string_get_is_Some.
    by rewrite (Hnc y dy w (domain_of_lookup _ _ _ _ Hly Hdy) Hw).
Qed.

(** Node consistency is needed for that: before it, a word shorter than the
    overlap index makes [x_value[overlap[0]]] raise [IndexError]. *)
Lemma revise_raises_on_short_word :
  (revise (Examples.crossing {["CAT"; "A"]}) Examples.across Examples.down
     (init (Examples.crossing {["CAT"; "A"]}))).1 = Raise IndexError.
Proof. by vm_compute. Qed.

(** ** Frame, monotonicity and the meaning of revise *)

(** C7.  On node-consistent domains, for two distinct slots of a well-formed
    crossword, [revise] returns; when the slots overlap at offsets [(i, j)]
    the words left in [x]'s domain are exactly those that some word of [y]'s
    domain agrees with, and the result is [True] iff a word was removed; when
    they do not overlap the state is unchanged and the result is [False]. *)
Theorem revise_removes_unsupported cw st x y :
  wf_crossword cw → wf_store cw st → node_consistent st →
  x ∈ variables cw → y ∈ variables cw → x ≠ y →
  ∃ revised st', revise cw x y st = (Return revised, st') ∧
    match overlaps cw !! (x, y) with
    | Some (Some (i, j)) =>
        (∀ v, v ∈ domain_words st' x ↔
              v ∈ domain_words st x ∧
              ∃ w, w ∈ domain_words st y ∧ agree i j v w) ∧
        (revised = true ↔
           ∃ v, v ∈ domain_words st x ∧ v ∉ domain_words st' x)
    | _ => st' = st ∧ revised = false
    end.
Proof.
  intros Hcw Hwf Hnc Hx Hy Hne.
  destruct (revise_returns cw st x y) as (r & st' & Hrun); [done..|].
  exists r, st'. split; [done|].
  destruct (wf_keys cw Hcw x y) as [_ [o Ho]]; [done|]. rewrite Ho.
  destruct o as [[i j]|].
  - destruct (revise_Return_wf cw x y i j st r st') as (Hnew & _ & -> & _);
      [done..|].
    split.
    + intros v. rewrite Hnew. unfold supported, set_Exists.
      rewrite elem_of_filter. tauto.
    + rewrite bool_decide_eq_true, Hnew. split.
      * intros Hd. apply dec_stable. intros Hno. apply Hd. apply set_eq.
        intros v. split; [apply supported_subseteq|]. intros Hv.
        destruct (decide (v ∈ supported i j (domain_words st y)
                                (domain_words st x))); [done|].
        exfalso. apply Hno. by exists v.
      * intros (v & Hv & Hnv) Heq. by rewrite Heq in Hnv.
  - by destruct (revise_Return_None cw x y st _ _ Ho Hrun) as [[= ->] ->].
Qed.

(** C10.  On a well-formed store, whatever the outcome of [revise cw x y],
    the domain of every slot other than [x] is what it was, [y]'s included,
    and when the two slots have no overlap the state is unchanged. *)
Theorem revise_frame cw st x y :
  wf_crossword cw → wf_store cw st →
  (∀ z, z ≠ x → domain_of (revise cw x y st).2 z = domain_of st z) ∧
  domain_of (revise cw x y st).2 y = domain_of st y ∧
  (mjoin (overlaps cw !! (x, y)) = None → (revise cw x y st).2 = st).
Proof.
  intros Hcw Hwf.
  assert (∀ z, z ≠ x → domain_of (revise cw x y st).2 z = domain_of st z) as Hz.
  { intros z Hz. eapply only_changes_domain_of; [done| |done].
    apply revise_only_changes. }
  assert (mjoin (overlaps cw !! (x, y)) = None → (revise cw x y st).2 = st) as Hn.
  { unfold revise, overlaps_getitem, bind.
    destruct (overlaps cw !! (x, y)) as [[o|]|]; simpl; done. }
  split; [done|]. split; [|done].
  destruct (decide (y = x)) as [->|Hne]; [|by apply Hz].
  rewrite Hn; [done|].
  destruct (overlaps cw !! (x, x)) as [o|] eqn:Ho; [|done].
  destruct (wf_keys cw Hcw x x) as [H _].
  destruct H as (_ & _ & H); [by eexists|done].
Qed.

(** ** AC-3 *)

Lemma ac3_loop_shrinks cw fuel : ∀ arcs, always shrinks (ac3_loop cw fuel arcs).
Proof.
  induction fuel as [|fuel IH]; intros arcs; simpl; [by intros st|].
  destruct (list_pop arcs) as [[arcs' [x y]]|].
  - apply always_bind; [apply _|apply revise_shrinks|intros []; [|apply IH]].
    apply always_bind; [apply _| |intros d].
    { apply pure_always; [apply _|apply pure_domains_getitem]. }
    destruct (decide _); [|apply IH].
    apply pure_always; [apply _|apply pure_ret].
  - apply pure_always; [apply _|apply pure_ret].
Qed.

Lemma ac3_shrinks cw arcs : always shrinks (ac3 cw arcs).
Proof. intros st. unfold ac3. apply ac3_loop_shrinks. Qed.

(** C9.  Whatever their outcome, [revise] and [ac3] leave in the domain of
    every slot a subset of the words it held before the call. *)
Theorem propagation_only_shrinks cw st x y arcs S :
  domain_words (revise cw x y st).2 S ⊆ domain_words st S ∧
  domain_words (ac3 cw arcs st).2 S ⊆ domain_words st S.
Proof.
  split; apply shrinks_domain_words; [apply revise_shrinks|apply ac3_shrinks].
Qed.

Lemma list_pop_None {A} (l : list A) : list_pop l = None → l = [].
Proof. destruct l as [|a l]; [done|]. simpl. by destruct (list_pop l) as [[]|]. Qed.

Lemma list_pop_Some {A} (l l' : list A) a :
  list_pop l = Some (l', a) → l = l' ++ [a].
Proof.
  revert l'. induction l as [|b l IH]; intros l'; [done|]. simpl.
  destruct (list_pop l) as [[l'' c]|] eqn:Hp.
  - intros [= <- <-]. by rewrite (IH l'' eq_refl).
  - intros [= <- <-]. by rewrite (list_pop_None l Hp).
Qed.

Lemma enqueue_neighbors_elem cw x y arcs a :
  a ∈ enqueue_neighbors cw x y arcs ↔
  a ∈ arcs ∨ ∃ z, a = (z, x) ∧ z ∈ neighbors cw x ∧ y ≠ z.
Proof.
  unfold enqueue_neighbors. setoid_rewrite <-(elem_of_elements (neighbors cw x)).
  generalize (elements (neighbors cw x)) as zs. intros zs. revert arcs.
  induction zs as [|z zs IH]; intros arcs; simpl.
  - split; [by left|]. intros [|(z & _ & Hz & _)]; [done|].
    by apply elem_of_nil in Hz.
  - rewrite IH. destruct (decide (y ≠ z)) as [Hyz|Hyz].
    + rewrite elem_of_cons. split.
      * intros [[->|]|(z' & -> & Hz' & Hy)]; [right|by left|right].
        -- exists z. split; [done|]. split; [left|done].
        -- exists z'. split; [done|]. split; [by right|done].
      * intros [|(z' & -> & Hz' & Hy)]; [left; by right|].
        apply elem_of_cons in Hz' as [->|Hz']; [left; by left|right].
        by exists z'.
    + split.
      * intros [|(z' & -> & Hz' & Hy)]; [by left|right].
        exists z'. split; [done|]. split; [by right|done].
      * intros [|(z' & -> & Hz' & Hy)]; [by left|].
        apply elem_of_cons in Hz' as [->|Hz']; [done|right]. by exists z'.
Qed.

Lemma enqueue_neighbors_length cw x y arcs :
  length (enqueue_neighbors cw x y arcs) ≤ length arcs + size (variables cw).
Proof.
  unfold enqueue_neighbors.
  assert (length (elements (neighbors cw x)) ≤ size (variables cw)) as Hn.
  { apply (subseteq_size (neighbors cw x)). unfold neighbors. set_solver. }
  revert Hn. generalize (elements (neighbors cw x)) as zs.
  intros zs. generalize (size (variables cw)) as n. revert arcs.
  induction zs as [|z zs IH]; intros arcs n Hn; simpl; [lia|].
  simpl in Hn. destruct n as [|n]; [lia|].
  destruct (decide (y ≠ z)).
  - etrans; [apply (IH _ n); lia|]. simpl. lia.
  - etrans; [apply (IH _ n); lia|]. lia.
Qed.

Lemma initial_arcs_elem cw x y :
  (x, y) ∈ initial_arcs cw ↔ is_Some (mjoin (overlaps cw !! (x, y))).
Proof.
  unfold initial_arcs.
  assert (∀ l acc, (x, y) ∈ fold_left
            (λ arcs (kv : variable * variable * option (nat * nat)),
               if decide (kv.2 ≠ None) then kv.1 :: arcs else arcs) l acc ↔
          (x, y) ∈ acc ∨ ∃ o, (x, y, Some o) ∈ l) as Hfold.
  { induction l as [|[k o] l IH]; intros acc; simpl.
    - split; [by left|]. intros [|[o Ho]]; [done|]. by apply elem_of_nil in Ho.
    - rewrite IH. destruct (decide (o ≠ None)) as [Ho|Ho]; simpl.
      + rewrite elem_of_cons. split.
        * intros [[->|]|[o' Ho']]; [right|by left|right].
          -- destruct o as [o|]; [|done]. exists o. left.
          -- exists o'. by right.
        * intros [|[o' Ho']]; [left; by right|].
          apply elem_of_cons in Ho' as [[= <- <-]|Ho']; [left; by left|right].
          by exists o'.
      + split.
        * intros [|[o' Ho']]; [by left|right]. exists o'. by right.
        * intros [|[o' Ho']]; [by left|].
          apply elem_of_cons in Ho' as [[= <- <-]|Ho']; [|right; by exists o'].
          exfalso. by apply Ho. }
  rewrite Hfold. setoid_rewrite elem_of_map_to_list. split.
  - intros [Hnil|[o Ho]]; [by apply elem_of_nil in Hnil|]. rewrite Ho. by eexists.
  - intros [o Ho]. right. exists o.
    destruct (overlaps cw !! (x, y)) as [[o'|]|]; simpl in Ho; by simplify_eq.
Qed.

(** *** Termination: the fuel given to the loop is never used up *)

Lemma terminates_ret {A} (a : A) : terminates (ret a).
Proof. by intros st. Qed.

Lemma terminates_raise {A} e : terminates (raise (A:=A) e).
Proof. by intros st. Qed.

Lemma terminates_bind {A B} (m : M A) (k : A → M B) :
  terminates m → (∀ a, terminates (k a)) → terminates (bind m k).
Proof.
  intros Hm Hk st. unfold bind. specialize (Hm st).
  destruct (m st) as [[a|e|] st1]; simpl in *; [apply Hk|done..].
Qed.

Lemma terminates_domains_getitem x : terminates (domains_getitem x).
Proof. intros st. unfold domains_getitem. by destruct (domain_of st x). Qed.

Lemma terminates_domains_remove x v : terminates (domains_remove x v).
Proof.
  intros st. unfold domains_remove.
  destruct (domains st !! x) as [l|]; [|done].
  destruct (heap st !! l) as [s|]; [|done]. by destruct (decide _).
Qed.

Lemma terminates_has_valid_y v i j ys : terminates (has_valid_y v i j ys).
Proof.
  induction ys as [|w ys IH]; simpl; [apply terminates_ret|]. unfold str_getitem.
  destruct (String.get i v); [|apply terminates_raise].
  destruct (String.get j w); [|apply terminates_raise].
  destruct (decide _); [apply terminates_ret|done].
Qed.

Lemma terminates_revise_loop x y i j vs :
  ∀ result, terminates (revise_loop x y i j vs result).
Proof.
  induction vs as [|v vs IH]; intros result; simpl; [apply terminates_ret|].
  apply terminates_bind; [apply terminates_domains_getitem|intros ys].
  apply terminates_bind; [apply terminates_has_valid_y|intros []; [apply IH|]].
  apply terminates_bind; [apply terminates_domains_remove|intros _; apply IH].
Qed.

Lemma terminates_revise cw x y : terminates (revise cw x y).
Proof.
  unfold revise. apply terminates_bind.
  - intros st. unfold overlaps_getitem. by destruct (overlaps cw !! (x, y)).
  - intros [[i j]|]; [|apply terminates_ret].
    apply terminates_bind; [apply terminates_domains_getitem|intros d].
    apply terminates_revise_loop.
Qed.

Lemma ac3_loop_terminates cw fuel : ∀ arcs st,
  length arcs + total (heap st) * S (size (variables cw)) < fuel →
  (ac3_loop cw fuel arcs st).1 ≠ OutOfFuel.
Proof.
  induction fuel as [|fuel IH]; intros arcs st Hfuel; [lia|]. simpl.
  destruct (list_pop arcs) as [[arcs' [x y]]|] eqn:Hpop; [|done].
  apply list_pop_Some in Hpop as ->. rewrite length_app in Hfuel. simpl in Hfuel.
  unfold bind at 1. pose proof (terminates_revise cw x y st) as Hterm.
  pose proof (revise_shrinks cw x y st) as Hs.
  destruct (revise cw x y st) as [[r|e|] st1] eqn:Hrev; simpl in *; [|done..].
  apply shrinks_total in Hs. destruct r.
  - apply revise_total_lt in Hrev. unfold bind.
    destruct (domains_getitem x st1) as [[d|e|] st2] eqn:Hget; simpl; [|done|].
    + apply domains_getitem_Return in Hget as [-> _].
      destruct (decide (size d = 0)); [done|]. apply IH.
      pose proof (enqueue_neighbors_length cw x y arcs'). nia.
    + by pose proof (terminates_domains_getitem x st1) as Ht; rewrite Hget in Ht.
  - apply IH. nia.
Qed.

(** [ac3] always comes to an end: with a result or with an exception. *)
Lemma ac3_terminates cw arcs : terminates (ac3 cw arcs).
Proof. intros st. unfold ac3, ac3_fuel. apply ac3_loop_terminates. lia. Qed.

(** On node-consistent domains [ac3] raises nothing, when its worklist holds
    pairs of distinct slots only. *)
Lemma ac3_loop_no_raise cw :
  wf_crossword cw → ∀ fuel arcs st e,
  wf_store cw st → node_consistent st →
  Forall (λ a, is_Some (overlaps cw !! a)) arcs →
  (ac3_loop cw fuel arcs st).1 ≠ Raise e.
Proof.
  intros Hcw. induction fuel as [|fuel IH]; intros arcs st e Hwf Hnc Harcs;
    [done|]. simpl.
  destruct (list_pop arcs) as [[arcs' [x y]]|] eqn:Hpop; [|done].
  apply list_pop_Some in Hpop as ->.
  apply Forall_app in Harcs as [Harcs' [Hxy _]%Forall_cons].
  destruct (wf_keys cw Hcw x y) as [(Hx & Hy & Hne) _]; [done|].
  destruct (revise_returns cw st x y) as (r & st1 & Hrev); [done..|].
  pose proof (revise_shrinks cw x y st) as Hs. rewrite Hrev in Hs. simpl in Hs.
  assert (wf_store cw st1) as Hwf1 by by eapply shrinks_wf_store.
  assert (node_consistent st1) as Hnc1.
  { eapply shrinks_node_consistent; [done| |done]. by destruct Hwf as (_ & ? & _). }
  unfold bind at 1. rewrite Hrev. destruct r; [|by apply IH].
  destruct (wf_store_lookup cw st1 x Hwf1 Hx) as (lx & dx & Hlx & Hdx).
  unfold bind, domains_getitem. rewrite (domain_of_lookup st1 x lx dx) by done.
  destruct (decide (size dx = 0)); [done|]. apply IH; [done..|].
  apply Forall_forall. intros a [Ha|(z & -> & Hz & _)]%enqueue_neighbors_elem.
  - by eapply Forall_forall in Harcs'.
  - unfold neighbors in Hz. apply elem_of_filter in Hz as [[_ Hz] _].
    destruct (overlaps cw !! (z, x)); [done|]. by destruct Hz.
Qed.

Lemma ac3_returns cw st :
  wf_crossword cw → wf_store cw st → node_consistent st →
  ∃ b st', ac3 cw None st = (Return b, st').
Proof.
  intros Hcw Hwf Hnc. pose proof (ac3_terminates cw None st) as Hterm.
  pose proof (ac3_loop_no_raise cw Hcw (ac3_fuel cw st (initial_arcs cw))
                (initial_arcs cw) st) as Hraise.
  unfold ac3 in *.
  destruct (ac3_loop cw _ (initial_arcs cw) st) as [[b|e|] st'] eqn:Hrun;
    simpl in *; [by exists b, st'| |done].
  exfalso. apply (Hraise e); [done..| |done].
  apply Forall_forall. intros [x y] Ha%initial_arcs_elem.
  destruct (overlaps cw !! (x, y)); [done|]. by destruct Ha.
Qed.

(** *** Arc consistency *)

Lemma agree_sym i j v w : agree i j v w → agree j i w v.
Proof. intros (c & Hv & Hw). by exists c. Qed.

Lemma domain_words_frame st st' z :
  domain_of st' z = domain_of st z → domain_words st' z = domain_words st z.
Proof. unfold domain_words. by intros ->. Qed.

Lemma ac3_loop_consistent cw :
  wf_crossword cw → ∀ fuel arcs st st',
  wf_store cw st → pending_or_ok cw arcs st →
  ac3_loop cw fuel arcs st = (Return true, st') → arc_consistent cw st'.
Proof.
  intros Hcw. induction fuel as [|fuel IH]; intros arcs st st' Hwf Hinv; [done|].
  simpl. destruct (list_pop arcs) as [[arcs' [x y]]|] eqn:Hpop.
  2:{ apply list_pop_None in Hpop as ->. intros [= <-]. intros a b i j Hab.
      destruct (Hinv a b i j Hab) as [Hnil|]; [|done]. by apply elem_of_nil in Hnil. }
  apply list_pop_Some in Hpop as ->.
  intros (r & st1 & Hrev & Hrest)%bind_Return.
  destruct (revise_Return_overlap cw x y st r st1 Hrev) as [o Ho].
  destruct (wf_keys cw Hcw x y) as [(Hx & Hy & Hne) _]; [by eexists|].
  destruct o as [[i j]|].
  2:{ destruct (revise_Return_None cw x y st _ _ Ho Hrev) as [[= ->] ->].
      apply (IH arcs' st st'); [done| |done]. intros a b i j Hab.
      destruct (Hinv a b i j Hab) as [Hin|]; [|by right].
      apply elem_of_app in Hin as [|Hin]; [by left|].
      apply list_elem_of_singleton in Hin as [= -> ->]. congruence. }
  destruct (revise_Return_wf cw x y i j st r st1)
    as (Hnew & Hframe & Hr & Hwf1); [done..|].
  assert (∀ z, z ≠ x → domain_words st1 z = domain_words st z) as Hfr.
  { intros z Hz. by apply domain_words_frame, Hframe. }
  assert (arc_ok st1 x y i j) as Hxy.
  { intros v. rewrite Hnew, (Hfr y) by done. unfold supported.
    rewrite elem_of_filter. by intros [? _]. }
  destruct r.
  - apply bind_Return in Hrest as (d & st2 & Hget & Hrest).
    apply domains_getitem_Return in Hget as [-> _].
    destruct (decide (size d = 0)); [done|].
    apply (IH (enqueue_neighbors cw x y arcs') st1 st'); [done| |done].
    intros a b i' j' Hab. rewrite enqueue_neighbors_elem.
    destruct (Hinv a b i' j' Hab) as [Hin|Hok].
    { apply elem_of_app in Hin as [|Hin]; [left; by left|].
      apply list_elem_of_singleton in Hin as [= -> ->]. right.
      by assert (i' = i ∧ j' = j) as [-> ->] by (split; congruence). }
    destruct (wf_keys cw Hcw a b) as [(Ha & Hb & Hab') _]; [by eexists|].
    destruct (decide (b = x)) as [->|Hbx].
    + destruct (decide (a = y)) as [->|Hay].
      * right. pose proof (wf_sym cw Hcw x y i j Ho) as Hsym.
        assert (i' = j ∧ j' = i) as [-> ->] by (split; congruence).
        intros v. rewrite (Hfr y) by done. intros Hv.
        destruct (Hok v Hv) as (w & Hw & Hag). exists w. split; [|done].
        rewrite Hnew. unfold supported. apply elem_of_filter. split; [|done].
        exists v. split; [done|]. by apply agree_sym.
      * left. right. exists a. split; [done|]. split; [|done].
        unfold neighbors. apply elem_of_filter. split; [|done].
        split; [done|]. rewrite Hab. by eexists.
    + right. intros v Hv. rewrite (Hfr b) by done. apply Hok.
      destruct (decide (a = x)) as [->|Hax]; [|by rewrite <-(Hfr a)].
      rewrite Hnew in Hv. by apply supported_subseteq in Hv.
  - symmetry in Hr. apply bool_decide_eq_false in Hr. apply dec_stable in Hr.
    assert (∀ z, domain_words st1 z = domain_words st z) as Hsame.
    { intros z. destruct (decide (z = x)) as [->|]; [done|by apply Hfr]. }
    apply (IH arcs' st1 st'); [done| |done]. intros a b i' j' Hab.
    destruct (Hinv a b i' j' Hab) as [Hin|Hok].
    + apply elem_of_app in Hin as [|Hin]; [by left|].
      apply list_elem_of_singleton in Hin as [= -> ->]. right.
      by assert (i' = i ∧ j' = j) as [-> ->] by (split; congruence).
    + right. intros v. rewrite !Hsame. apply Hok.
Qed.

(** C6.  When [ac3] is called without a worklist on a well-formed creator
    and returns [True], every arc of the crossword is consistent in the state
    it leaves: for every ordered pair of overlapping slots [(X, Y)] and every
    word of [X]'s domain some word of [Y]'s domain agrees with it at the
    overlap offsets. *)
Theorem ac3_arc_consistent cw st st' :
  wf_crossword cw → wf_store cw st →
  ac3 cw None st = (Return true, st') →
  ∀ X Y i j, overlaps cw !! (X, Y) = Some (Some (i, j)) →
    ∀ x, x ∈ domain_words st' X →
      ∃ y, y ∈ domain_words st' Y ∧ agree i j x y.
Proof.
  intros Hcw Hwf Hrun. unfold ac3 in Hrun.
  eapply (ac3_loop_consistent cw Hcw); [done| |done].
  intros x y i j Hxy. left. apply initial_arcs_elem. rewrite Hxy. by eexists.
Qed.

(** ** Search *)

Lemma NoDup_fmap_elem_inj {A B} (f : A → B) (l : list A) a b :
  NoDup (f <$> l) → a ∈ l → b ∈ l → f a = f b → a = b.
Proof.
  induction l as [|c l IH]; simpl; [by intros _ ?%elem_of_nil|].
  intros [Hc Hnd]%NoDup_cons Ha Hb Hf.
  apply elem_of_cons in Ha as [->|Ha]; apply elem_of_cons in Hb as [->|Hb].
  - done.
  - exfalso. apply Hc. rewrite Hf. by apply list_elem_of_fmap_2.
  - exfalso. apply Hc. rewrite <-Hf. by apply list_elem_of_fmap_2.
  - by apply IH.
Qed.

Lemma satisfies_constraints_check_sound cw a :
  satisfies_constraints_check cw a → satisfies_constraints cw a.
Proof.
  intros (Hdom & Hnd & Hlen & Hov). split_and!; [done| |done|].
  - intros x y w Hx%elem_of_map_to_list Hy%elem_of_map_to_list.
    by injection (NoDup_fmap_elem_inj snd _ (x, w) (y, w) Hnd Hx Hy eq_refl).
  - intros x y i j v w Hxy. by apply (Hov _ _ Hxy).
Qed.

Lemma select_unassigned_variable_run cw a st :
  select_unassigned_variable cw a st = (Raise TypeError, st).
Proof. done. Qed.

Lemma backtrack_Return cw a st o st' :
  backtrack cw a st = (Return o, st') →
  o = Some a ∧ st' = st ∧ size a = size (domains st).
Proof.
  unfold backtrack. destruct (decide _) as [Hsz|]; [|done].
  by intros [= <- <-].
Qed.

Lemma satisfies_constraints_complete cw st a :
  wf_store cw st → satisfies_constraints cw a → size a = size (domains st) →
  complete cw a.
Proof.
  intros (Hdom & _) (Hsub & _) Hsz x Hx. apply elem_of_dom.
  assert (dom a = variables cw) as ->; [|done].
  apply set_subseteq_size_eq; [done|].
  by rewrite <-Hdom, !size_dom, Hsz.
Qed.


Lemma backtrack_Return_valid cw st a r st' :
  wf_store cw st → satisfies_constraints cw a →
  backtrack cw a st = (Return (Some r), st') → valid_assignment cw r.
Proof.
  intros Hwf Hc ([= ->] & _ & Hsz)%backtrack_Return.
  split; [by eapply satisfies_constraints_complete|].
  by destruct Hc as (_ & ? & ? & ?).
Qed.



(** A call of [backtrack] leaves the domains as it found them: it returns at
    its first test or raises in [select_unassigned_variable], before the
    loop over the values is entered. *)
Lemma backtrack_leaves_store cw a st : (backtrack cw a st).2 = st.
Proof. unfold backtrack. by destruct (decide _). Qed.



(** [consistent] raises as soon as a slot it checks has a neighbor. *)
Lemma consistent_raises :
  (consistent Examples.crossing3 Examples.cat_arc (init Examples.crossing3)).1
    = Raise TypeError.
Proof. by vm_compute. Qed.

(** On a crossword with at least one slot [solve] does not return. *)
Lemma solve_never_returns cw st o :
  wf_store cw st → variables cw ≠ ∅ → (solve cw st).1 ≠ Return o.
Proof.
  intros Hwf Hne Hrun. destruct (solve cw st) as [r st'] eqn:Hsolve.
  simpl in Hrun. subst r. unfold solve in Hsolve.
  apply bind_Return in Hsolve as ([] & st1 & H1 & H).
  apply bind_Return in H as (b & st2 & H2 & H).
  apply backtrack_Return in H as (-> & -> & Hsz).
  pose proof (enforce_node_consistency_ok st) as (st1' & Hrun & [Hd1 _] & _);
    [by destruct Hwf as (_ & ? & _)|].
  rewrite H1 in Hrun. injection Hrun as <-.
  pose proof (ac3_shrinks cw None st1) as [Hd2 _]. rewrite H2 in Hd2. simpl in Hd2.
  destruct Hwf as (Hdom & _). apply Hne.
  rewrite <-Hdom, <-Hd1, <-Hd2. apply dom_empty_iff_L, map_size_empty_inv.
  by rewrite <-Hsz, map_size_empty.
Qed.

(** On every well-formed crossword with at least one slot, [solve] gets
    through node and arc consistency and raises [TypeError] in the search. *)
Lemma solve_raises_TypeError cw :
  wf_crossword cw → variables cw ≠ ∅ →
  (solve cw (init cw)).1 = Raise TypeError.
Proof.
  intros Hcw Hne. pose proof (init_wf_store cw) as Hwf. unfold solve.
  destruct (enforce_node_consistency_ok (init cw)) as (st1 & H1 & Hs1 & Hnc);
    [by destruct Hwf as (_ & ? & _)|].
  unfold bind at 1. rewrite H1.
  assert (wf_store cw st1) as Hwf1 by by eapply shrinks_wf_store.
  destruct (ac3_returns cw st1) as (b & st2 & H2); [done..|].
  unfold bind at 1. rewrite H2.
  pose proof (ac3_shrinks cw None st1) as Hs2. rewrite H2 in Hs2.
  destruct (shrinks_wf_store cw st1 st2 Hs2 Hwf1) as (Hdom & _).
  unfold backtrack. rewrite decide_False; [done|].
  rewrite map_size_empty, <-(size_dom (D:=gset variable)), Hdom.
  intros Hsz. symmetry in Hsz. by apply size_empty_inv, leibniz_equiv in Hsz.
Qed.

(** C4.  [select_unassigned_variable] raises [TypeError] on every partial
    assignment and every creator: it returns no slot. *)
Theorem select_unassigned_variable_raises cw a st :
  select_unassigned_variable cw a st = (Raise TypeError, st).
Proof. apply select_unassigned_variable_run. Qed.

(** C5.  [order_domain_values] returns for no slot and no assignment; on the
    one-slot crossword with words CAT and DOG it raises [TypeError]. *)
Theorem order_domain_values_raises :
  (∀ cw var a st l, (order_domain_values cw var a st).1 ≠ Return l) ∧
  order_domain_values Examples.single Examples.across ∅ (init Examples.single)
    = (Raise TypeError, init Examples.single).
Proof.
  split; [|by vm_compute].
  intros cw var a st l Hrun.
  destruct (order_domain_values cw var a st) as [r st'] eqn:Hodv.
  simpl in Hrun. subst r. unfold order_domain_values in Hodv.
  apply bind_Return in Hodv as (values & st1 & _ & H).
  apply bind_Return in H as (ranked & st2 & _ & H). done.
Qed.

(** C2.  On the one-slot crossword with words CAT and DOG, [solve] lets a
    [TypeError] escape instead of returning an assignment. *)
Theorem solve_raises :
  solve Examples.single (init Examples.single)
    = (Raise TypeError, init Examples.single).
Proof. by vm_compute. Qed.

(** ** The example crosswords *)

Lemma crossing_wf ws : wf_crossword (Examples.crossing ws).
Proof. apply wf_crossword_check_sound. decide_by_compute. Qed.

Lemma single_wf : wf_crossword Examples.single.
Proof. apply wf_crossword_check_sound. decide_by_compute. Qed.

Lemma enforce_node_consistency_sound_witness :
  ∃ st', enforce_node_consistency (init Examples.crossing_mixed) = (Return (), st') ∧
    ∀ S d W, domain_of st' S = Some d → W ∈ d →
             String.length W = var_length S.
Proof.
  apply (enforce_node_consistency_sound (init Examples.crossing_mixed)).
  decide_by_compute.
Defined.

Lemma revise_removes_unsupported_witness :
  let cw := Examples.crossing_mixed in
  let st := (enforce_node_consistency (init cw)).2 in
  ∃ revised st',
    revise cw Examples.across Examples.down st = (Return revised, st') ∧
    match overlaps cw !! (Examples.across, Examples.down) with
    | Some (Some (i, j)) =>
        (∀ v, v ∈ domain_words st' Examples.across ↔
              v ∈ domain_words st Examples.across ∧
              ∃ w, w ∈ domain_words st Examples.down ∧ agree i j v w) ∧
        (revised = true ↔
           ∃ v, v ∈ domain_words st Examples.across ∧
                v ∉ domain_words st' Examples.across)
    | _ => st' = st ∧ revised = false
    end.
Proof.
  intros cw st.
  destruct (enforce_node_consistency_ok (init cw)) as (st1 & Hrun & Hs & Hn).
  { decide_by_compute. }
  assert (st = st1) as -> by (unfold st; by rewrite Hrun).
  apply (revise_removes_unsupported cw st1 Examples.across Examples.down).
  - apply crossing_wf.
  - eapply shrinks_wf_store; [done|apply init_wf_store].
  - done.
  - decide_by_compute.
  - decide_by_compute.
  - done.
Defined.

Lemma revise_frame_witness :
  let cw := Examples.crossing3 in
  let st := init cw in
  (∀ z, z ≠ Examples.across →
        domain_of (revise cw Examples.across Examples.down st).2 z
        = domain_of st z) ∧
  domain_of (revise cw Examples.across Examples.down st).2 Examples.down
    = domain_of st Examples.down ∧
  (mjoin (overlaps cw !! (Examples.across, Examples.down)) = None →
   (revise cw Examples.across Examples.down st).2 = st).
Proof.
  intros cw st.
  apply (revise_frame cw st Examples.across Examples.down);
    [apply crossing_wf|apply init_wf_store].
Defined.

Lemma ac3_arc_consistent_witness :
  let cw := Examples.crossing3 in
  let st' := (ac3 cw None (init cw)).2 in
  ∃ y, y ∈ domain_words st' Examples.down ∧ agree 1 0 "CAT" y.
Proof.
  intros cw st'.
  apply (ac3_arc_consistent cw (init cw) st' (crossing_wf _) (init_wf_store cw)
           ltac:(by vm_compute) Examples.across Examples.down 1 0
           ltac:(by vm_compute) "CAT").
  decide_by_compute.
Defined.


(** * Further properties of the creator *)

(** ** The domains a new creator holds *)

(** What [self.domains[x]] is in a new creator. *)
Lemma init_domain_of cw x :
  domain_of (init cw) x =
    if decide (x ∈ variables cw) then Some (words cw) else None.
Proof.
  pose proof (init_wf_store cw) as (Hdom & Hal & _).
  destruct (decide (x ∈ variables cw)) as [Hx|Hx]; rewrite <-Hdom in Hx.
  - apply elem_of_dom in Hx as [l Hl]. unfold domain_of. rewrite Hl. simpl.
    apply lookup_replicate_2. specialize (Hal x l Hl). simpl in Hal.
    by rewrite length_replicate in Hal.
  - apply not_elem_of_dom in Hx. unfold domain_of. by rewrite Hx.
Qed.

(** X1.  [__init__] gives every slot of the crossword the whole vocabulary
    and no other key a domain; each slot holds a set object of its own: a
    word removed from the domain of one slot stays in the domain of every
    other slot. *)
Theorem init_fresh_domains cw :
  (∀ x, domain_of (init cw) x =
          if decide (x ∈ variables cw) then Some (words cw) else None) ∧
  (∀ x y value, x ≠ y →
     domain_of (domains_remove x value (init cw)).2 y = domain_of (init cw) y).
Proof.
  split; [apply init_domain_of|]. intros x y value Hxy.
  eapply only_changes_domain_of; [apply init_wf_store| |done].
  apply domains_remove_only_changes.
Qed.

(** ** Node consistency keeps the words that fit *)

Lemma difference_wrong_length var (cur : gset string) :
  cur ∖ list_to_set (wrong_length var (elements cur)) = fitting var cur.
Proof.
  apply set_eq. intros w. unfold fitting, wrong_length.
  rewrite elem_of_difference, elem_of_list_to_set, list_elem_of_filter,
    elem_of_elements, elem_of_filter.
  split.
  - intros [Hw Hn]. split; [|done].
    destruct (decide (String.length w = var_length var)) as [|Hne]; [done|].
    exfalso. apply Hn. split; [|done]. by intros ?.
  - intros [Hlen Hw]. split; [done|]. intros [Hne _]. by apply Hne.
Qed.

(** The outer loop of [enforce_node_consistency] filters the domain of each
    slot it visits and leaves the others alone. *)
Lemma enforce_node_vars_exact cw vars : ∀ st,
  wf_store cw st → NoDup vars → (∀ x, x ∈ vars → x ∈ variables cw) →
  ∃ st', enforce_node_vars vars st = (Return (), st') ∧ shrinks st st' ∧
    ∀ x, domain_words st' x =
           if decide (x ∈ vars) then fitting x (domain_words st x)
           else domain_words st x.
Proof.
  induction vars as [|x vars IH]; intros st Hwf Hnd Hin; simpl.
  - exists st. split; [done|]. split; [done|]. intros x.
    destruct (decide (x ∈ [])) as [Hx|]; [|done]. by apply elem_of_nil in Hx.
  - apply NoDup_cons in Hnd as [Hx Hnd].
    destruct (wf_store_lookup cw st x Hwf) as (l & cur & Hl & Hcur);
      [apply Hin; left|].
    unfold bind at 1. unfold domains_getitem.
    rewrite (domain_of_lookup st x l cur) by done. unfold bind at 1.
    rewrite (enforce_node_values_ok x l _ st cur)
      by (done || apply NoDup_elements || by setoid_rewrite elem_of_elements).
    rewrite difference_wrong_length. set (st1 := mkCreator _ _).
    assert (shrinks st st1) as Hs1.
    { split; [done|]. simpl.
      rewrite <-(list_insert_id (heap st) l cur) at 2 by done.
      apply Forall2_insert; [apply heap_subseteq_refl|].
      intros w Hw. by apply elem_of_filter in Hw as [_ ?]. }
    assert (only_changes x st st1) as Hoc.
    { split; [done|]. split; [simpl; by rewrite length_insert|].
      intros l' Hl'. simpl. apply list_lookup_insert_ne. congruence. }
    assert (domain_words st1 x = fitting x (domain_words st x)) as Hx1.
    { rewrite (domain_words_lookup st x l cur) by done.
      apply (domain_words_lookup st1 x l); [done|]. simpl.
      apply list_lookup_insert_eq. by eapply lookup_lt_Some. }
    destruct (IH st1) as (st' & Hrun & Hs & Hok).
    { by eapply shrinks_wf_store. }
    { done. }
    { intros z Hz. apply Hin. by right. }
    exists st'. split; [done|]. split; [by etrans|]. intros z. rewrite Hok.
    destruct (decide (z = x)) as [->|Hzx].
    + rewrite decide_False by done. rewrite decide_True by left. done.
    + assert (domain_words st1 z = domain_words st z) as ->.
      { apply domain_words_frame. by eapply only_changes_domain_of. }
      destruct (decide (z ∈ vars)) as [Hz|Hz].
      * rewrite decide_True by (by right). done.
      * rewrite decide_False; [done|]. by intros [?|?]%elem_of_cons.
Qed.

Lemma enforce_node_consistency_fitting cw st :
  wf_store cw st →
  ∃ st', enforce_node_consistency st = (Return (), st') ∧
    ∀ x, domain_words st' x = fitting x (domain_words st x).
Proof.
  intros Hwf. unfold enforce_node_consistency.
  destruct (enforce_node_vars_exact cw (map_to_list (domains st)).*1 st)
    as (st' & Hrun & _ & Hok); [done| | |].
  { apply NoDup_fst_map_to_list. }
  { intros x (p & -> & Hp)%list_elem_of_fmap. destruct p as [x l].
    apply elem_of_map_to_list in Hp. destruct Hwf as (<- & _).
    by apply elem_of_dom. }
  exists st'. split; [done|]. intros x. rewrite Hok.
  destruct (decide _) as [|Hx]; [done|].
  assert (domain_words st x = ∅) as ->.
  { unfold domain_words, domain_of.
    destruct (domains st !! x) as [l|] eqn:Hl; [|done].
    exfalso. apply Hx. apply list_elem_of_fmap. exists (x, l).
    split; [done|]. by apply elem_of_map_to_list. }
  unfold fitting. set_solver.
Qed.

(** X2.  On a creator whose slots share no set object,
    [enforce_node_consistency] returns and leaves in the domain of every
    slot exactly the words that have the length of the slot: it removes no
    word that fits. *)
Theorem enforce_node_consistency_exact cw st :
  wf_store cw st →
  ∃ st', enforce_node_consistency st = (Return (), st') ∧
    ∀ x, domain_words st' x = fitting x (domain_words st x).
Proof. apply enforce_node_consistency_fitting. Qed.

(** On node-consistent domains the loop removes nothing. *)
Lemma enforce_node_vars_fixpoint vars : ∀ st,
  allocated st → node_consistent st →
  (∀ x, x ∈ vars → is_Some (domains st !! x)) →
  enforce_node_vars vars st = (Return (), st).
Proof.
  induction vars as [|x vars IH]; intros st Hal Hnc Hdom; simpl; [done|].
  destruct (Hdom x) as [l Hl]; [left|].
  destruct (lookup_lt_is_Some_2 (heap st) l) as [cur Hcur]; [by apply (Hal x)|].
  unfold bind at 1. unfold domains_getitem.
  rewrite (domain_of_lookup st x l cur) by done. unfold bind at 1.
  rewrite (enforce_node_values_ok x l _ st cur)
    by (done || apply NoDup_elements || by setoid_rewrite elem_of_elements).
  rewrite difference_wrong_length.
  assert (fitting x cur = cur) as ->.
  { apply set_eq. intros w. unfold fitting. rewrite elem_of_filter.
    split; [by intros [_ ?]|]. intros Hw. split; [|done].
    by apply (Hnc x cur w); [apply domain_of_lookup with l|]. }
  rewrite list_insert_id by done.
  assert (mkCreator (domains st) (heap st) = st) as -> by by destruct st.
  apply IH; [done..|]. intros z Hz. apply Hdom. by right.
Qed.

Lemma enforce_node_consistency_fixpoint st :
  allocated st → node_consistent st →
  enforce_node_consistency st = (Return (), st).
Proof.
  intros Hal Hnc. apply enforce_node_vars_fixpoint; [done..|].
  intros x (p & -> & Hp)%list_elem_of_fmap. destruct p as [x l].
  apply elem_of_map_to_list in Hp. by exists l.
Qed.

(** X3.  A second call of [enforce_node_consistency] returns and changes
    nothing. *)
Theorem enforce_node_consistency_idempotent st :
  allocated st →
  ∃ st', enforce_node_consistency st = (Return (), st') ∧
         enforce_node_consistency st' = (Return (), st').
Proof.
  intros Hal.
  destruct (enforce_node_consistency_ok st Hal) as (st' & Hrun & Hs & Hnc).
  exists st'. split; [done|].
  apply enforce_node_consistency_fixpoint; [by eapply shrinks_allocated|done].
Qed.

(** ** A revision that reports nothing changed nothing *)

(** Once [result] is [True] the loop of [revise] returns [True]. *)
Lemma revise_loop_true x y i j vs : ∀ st r st',
  revise_loop x y i j vs true st = (Return r, st') → r = true.
Proof.
  induction vs as [|v vs IH]; intros st r st'; simpl; [by intros [= <- _]|].
  intros (ys & st1 & _ & H)%bind_Return.
  apply bind_Return in H as ([] & st2 & _ & H); [by eapply IH|].
  apply bind_Return in H as ([] & st3 & _ & H). by eapply IH.
Qed.

(** A loop that returns [False] has removed no word. *)
Lemma revise_loop_false x y i j vs : ∀ result st st',
  revise_loop x y i j vs result st = (Return false, st') → st' = st.
Proof.
  induction vs as [|v vs IH]; intros result st st'; simpl; [by intros [= _ <-]|].
  intros (ys & st1 & Hget & H)%bind_Return.
  apply domains_getitem_Return in Hget as [-> _].
  apply bind_Return in H as (b & st1 & Hb & H).
  apply has_valid_y_Return in Hb as [-> _].
  destruct b; [by eapply IH|].
  apply bind_Return in H as ([] & st1 & _ & H).
  by apply revise_loop_true in H.
Qed.

Lemma revise_Return_false cw x y st st' :
  revise cw x y st = (Return false, st') → st' = st.
Proof.
  unfold revise. intros (o & st1 & Ho & H)%bind_Return.
  assert (st1 = st) as ->.
  { unfold overlaps_getitem in Ho. destruct (overlaps cw !! (x, y)); [|done].
    by injection Ho. }
  destruct o as [[i j]|]; [|by injection H].
  apply bind_Return in H as (d & st1 & Hget & H).
  apply domains_getitem_Return in Hget as [-> _].
  by eapply revise_loop_false.
Qed.

Lemma supported_idemp i j dy dx :
  supported i j dy (supported i j dy dx) = supported i j dy dx.
Proof.
  apply set_eq. intros v. unfold supported. rewrite !elem_of_filter. tauto.
Qed.

(** X4.  After [revise(x, y)] has returned, a second [revise(x, y)] returns
    [False] and leaves the domains as they are. *)
Theorem revise_idempotent cw st x y r st' :
  wf_crossword cw → wf_store cw st → node_consistent st →
  x ∈ variables cw → y ∈ variables cw → x ≠ y →
  revise cw x y st = (Return r, st') →
  revise cw x y st' = (Return false, st').
Proof.
  intros Hcw Hwf Hnc Hx Hy Hne Hrun.
  pose proof (revise_shrinks cw x y st) as Hs. rewrite Hrun in Hs. simpl in Hs.
  assert (wf_store cw st') as Hwf' by by eapply shrinks_wf_store.
  assert (node_consistent st') as Hnc'.
  { eapply shrinks_node_consistent; [done| |done]. by destruct Hwf as (_ & ? & _). }
  destruct (revise_returns cw st' x y) as (r2 & st2 & Hrun2); [done..|].
  destruct (wf_keys cw Hcw x y) as [_ [o Ho]]; [done|].
  destruct o as [[i j]|].
  - destruct (revise_Return_wf cw x y i j st r st') as (Hnew & Hfr & _);
      [done..|].
    destruct (revise_Return_wf cw x y i j st' r2 st2) as (Hnew2 & _ & Hr2 & _);
      [done..|].
    rewrite (domain_words_frame st st' y), Hnew, supported_idemp, <-Hnew
      in Hnew2 by (apply Hfr; congruence).
    rewrite bool_decide_eq_false_2 in Hr2 by (by intros ?). subst r2.
    by rewrite Hrun2, (revise_Return_false cw x y st' st2 Hrun2).
  - by destruct (revise_Return_None cw x y st' _ _ Ho Hrun2) as [[= ->] ->].
Qed.

(** ** AC-3: the loop ends *)

(** A loop that has come to an end with some fuel does the same with
    more. *)
Lemma ac3_loop_fuel_mono cw fuel : ∀ fuel' arcs st,
  (ac3_loop cw fuel arcs st).1 ≠ OutOfFuel → fuel ≤ fuel' →
  ac3_loop cw fuel' arcs st = ac3_loop cw fuel arcs st.
Proof.
  induction fuel as [|fuel IH]; intros fuel' arcs st Hne Hle; [done|].
  destruct fuel' as [|fuel']; [lia|]. simpl in *.
  destruct (list_pop arcs) as [[arcs' [x y]]|]; [|done].
  unfold bind in *. destruct (revise cw x y st) as [[r|e|] st1]; [|done..].
  destruct r; [|apply IH; [done|lia]].
  destruct (domains_getitem x st1) as [[d|e|] st2]; [|done..].
  destruct (decide (size d = 0)); [done|]. apply IH; [done|lia].
Qed.

(** X5.  The [while] loop of [ac3] comes to an end on every worklist and
    every state: it makes at most [len(arcs) + W * (V + 1)] iterations,
    where [W] is the number of words held by the set objects and [V] the
    number of slots, and allowing more iterations changes nothing. *)
Theorem ac3_fuel_suffices cw arcs st n :
  let worklist := match arcs with None => initial_arcs cw | Some l => l end in
  (ac3 cw arcs st).1 ≠ OutOfFuel ∧
  ac3_loop cw (ac3_fuel cw st worklist + n) worklist st = ac3 cw arcs st.
Proof.
  intros worklist. subst worklist. split; [apply ac3_terminates|].
  unfold ac3. apply ac3_loop_fuel_mono; [|lia].
  apply (ac3_terminates cw arcs st).
Qed.

(** ** AC-3: what the returned flag says of the domains *)

Lemma ac3_loop_false_empty cw fuel : ∀ arcs st st',
  ac3_loop cw fuel arcs st = (Return false, st') →
  ∃ x, domain_of st' x = Some ∅.
Proof.
  induction fuel as [|fuel IH]; intros arcs st st'; [done|]. simpl.
  destruct (list_pop arcs) as [[arcs' [x y]]|]; [|done].
  intros ([] & st1 & Hrev & H)%bind_Return; [|by eapply IH].
  apply bind_Return in H as (d & st2 & Hget & H).
  apply domains_getitem_Return in Hget as [-> Hd].
  destruct (decide (size d = 0)) as [Hsz|]; [|by eapply IH].
  injection H as <-. exists x. rewrite Hd. f_equal.
  by apply leibniz_equiv, size_empty_inv.
Qed.

(** X6.  When [ac3] returns [False], the domain of some slot is empty in
    the state it leaves. *)
Theorem ac3_False_empty_domain cw arcs st st' :
  ac3 cw arcs st = (Return false, st') → ∃ x, domain_of st' x = Some ∅.
Proof. unfold ac3. apply ac3_loop_false_empty. Qed.

Lemma ac3_loop_true_nonempty cw fuel : ∀ arcs st st',
  ac3_loop cw fuel arcs st = (Return true, st') →
  ∀ z, domain_words st z ≠ ∅ → domain_words st' z ≠ ∅.
Proof.
  induction fuel as [|fuel IH]; intros arcs st st'; [done|]. simpl.
  destruct (list_pop arcs) as [[arcs' [x y]]|]; [|by intros [= <-]].
  intros (r & st1 & Hrev & H)%bind_Return z Hz.
  destruct r.
  2:{ apply revise_Return_false in Hrev as ->. by eapply IH. }
  apply bind_Return in H as (d & st2 & Hget & H).
  apply domains_getitem_Return in Hget as [-> Hd].
  destruct (decide (size d = 0)) as [|Hsz]; [done|].
  eapply IH; [done|].
  pose proof (revise_only_changes cw x y st) as (Hdom & _ & Hoc).
  rewrite Hrev in Hdom, Hoc. simpl in Hdom, Hoc.
  unfold domain_words, domain_of in *. rewrite Hdom in *.
  destruct (domains st !! z) as [l|] eqn:Hl; simpl in *; [|done].
  destruct (decide (domains st !! x = Some l)) as [Hx|Hx].
  - rewrite Hx in Hd. simpl in Hd. rewrite Hd. simpl. intros ->.
    by rewrite size_empty in Hsz.
  - by rewrite Hoc.
Qed.

(** X7.  When [ac3] returns [True], every slot whose domain held a word
    before the call still holds one after it. *)
Theorem ac3_True_keeps_nonempty cw arcs st st' z :
  ac3 cw arcs st = (Return true, st') →
  domain_words st z ≠ ∅ → domain_words st' z ≠ ∅.
Proof. unfold ac3. intros Hrun. by eapply ac3_loop_true_nonempty. Qed.

(** ** AC-3 on domains that are arc consistent already *)

(** On arc-consistent domains every revision reports no change. *)
Lemma ac3_loop_fixpoint cw :
  wf_crossword cw → ∀ fuel arcs st,
  wf_store cw st → node_consistent st → arc_consistent cw st →
  Forall (λ a, is_Some (overlaps cw !! a)) arcs → length arcs < fuel →
  ac3_loop cw fuel arcs st = (Return true, st).
Proof.
  intros Hcw. induction fuel as [|fuel IH]; intros arcs st Hwf Hnc Hac Harcs Hlen;
    [lia|]. simpl.
  destruct (list_pop arcs) as [[arcs' [x y]]|] eqn:Hpop; [|done].
  apply list_pop_Some in Hpop as ->. rewrite length_app in Hlen. simpl in Hlen.
  apply Forall_app in Harcs as [Harcs' [[o Ho] _]%Forall_cons].
  destruct (wf_keys cw Hcw x y) as [(Hx & Hy & Hne) _]; [by eexists|].
  destruct (revise_returns cw st x y) as (r & st1 & Hrev); [done..|].
  assert (r = false) as ->.
  { destruct o as [[i j]|].
    - destruct (revise_Return_wf cw x y i j st r st1) as (Hnew & _ & -> & _);
        [done..|].
      apply bool_decide_eq_false_2. intros Hdiff. apply Hdiff. rewrite Hnew.
      apply set_eq. intros v. unfold supported. rewrite elem_of_filter.
      split; [by intros [_ ?]|]. intros Hv. split; [|done].
      by apply (Hac x y i j Ho v).
    - by destruct (revise_Return_None cw x y st _ _ Ho Hrev) as [[= ->] _]. }
  unfold bind. rewrite Hrev. apply revise_Return_false in Hrev as ->.
  apply IH; [done..|lia].
Qed.

Lemma initial_arcs_keys cw :
  Forall (λ a, is_Some (overlaps cw !! a)) (initial_arcs cw).
Proof.
  apply Forall_forall. intros [x y] Ha%initial_arcs_elem.
  destruct (overlaps cw !! (x, y)); [done|]. by destruct Ha.
Qed.

Lemma ac3_Return_arc_consistent cw st st' :
  wf_crossword cw → wf_store cw st →
  ac3 cw None st = (Return true, st') → arc_consistent cw st'.
Proof.
  intros Hcw Hwf Hrun. unfold ac3 in Hrun.
  eapply (ac3_loop_consistent cw Hcw); [done| |done].
  intros x y i j Hxy. left. apply initial_arcs_elem. rewrite Hxy. by eexists.
Qed.

(** X8.  On node-consistent domains in which every arc is consistent
    already, [ac3] returns [True] and removes nothing. *)
Theorem ac3_leaves_consistent_store cw st :
  wf_crossword cw → wf_store cw st → node_consistent st →
  arc_consistent cw st →
  ac3 cw None st = (Return true, st).
Proof.
  intros Hcw Hwf Hnc Hac. unfold ac3.
  apply ac3_loop_fixpoint; [done..|apply initial_arcs_keys|].
  unfold ac3_fuel. lia.
Qed.

(** X9.  After [ac3] has returned [True] on node-consistent domains, a
    second call returns [True] and changes nothing. *)
Theorem ac3_idempotent cw st st' :
  wf_crossword cw → wf_store cw st → node_consistent st →
  ac3 cw None st = (Return true, st') →
  ac3 cw None st' = (Return true, st').
Proof.
  intros Hcw Hwf Hnc Hrun.
  pose proof (ac3_shrinks cw None st) as Hs. rewrite Hrun in Hs. simpl in Hs.
  unfold ac3. apply ac3_loop_fixpoint; [done| | | |apply initial_arcs_keys|].
  - by eapply shrinks_wf_store.
  - eapply shrinks_node_consistent; [done| |done]. by destruct Hwf as (_ & ? & _).
  - by eapply ac3_Return_arc_consistent.
  - unfold ac3_fuel. lia.
Qed.

(** ** AC-3 with a worklist of the caller *)

(** The invariant of the loop, for the arcs of a given list: each is in the
    worklist or consistent. *)
Lemma ac3_loop_consistent_on cw (given : list (variable * variable)) :
  wf_crossword cw → ∀ fuel arcs st st',
  wf_store cw st →
  (∀ x y i j, (x, y) ∈ given → overlaps cw !! (x, y) = Some (Some (i, j)) →
     (x, y) ∈ arcs ∨ arc_ok st x y i j) →
  ac3_loop cw fuel arcs st = (Return true, st') →
  ∀ x y i j, (x, y) ∈ given → overlaps cw !! (x, y) = Some (Some (i, j)) →
    arc_ok st' x y i j.
Proof.
  intros Hcw. induction fuel as [|fuel IH]; intros arcs st st' Hwf Hinv; [done|].
  simpl. destruct (list_pop arcs) as [[arcs' [x y]]|] eqn:Hpop.
  2:{ apply list_pop_None in Hpop as ->. intros [= <-]. intros a b i j Hg Hab.
      destruct (Hinv a b i j Hg Hab) as [Hnil|]; [|done].
      by apply elem_of_nil in Hnil. }
  apply list_pop_Some in Hpop as ->.
  intros (r & st1 & Hrev & Hrest)%bind_Return.
  destruct (revise_Return_overlap cw x y st r st1 Hrev) as [o Ho].
  destruct (wf_keys cw Hcw x y) as [(Hx & Hy & Hne) _]; [by eexists|].
  destruct o as [[i j]|].
  2:{ destruct (revise_Return_None cw x y st _ _ Ho Hrev) as [[= ->] ->].
      apply (IH arcs' st st'); [done| |done]. intros a b i j Hg Hab.
      destruct (Hinv a b i j Hg Hab) as [Hin|]; [|by right].
      apply elem_of_app in Hin as [|Hin]; [by left|].
      apply list_elem_of_singleton in Hin as [= -> ->]. congruence. }
  destruct (revise_Return_wf cw x y i j st r st1)
    as (Hnew & Hframe & Hr & Hwf1); [done..|].
  assert (∀ z, z ≠ x → domain_words st1 z = domain_words st z) as Hfr.
  { intros z Hz. by apply domain_words_frame, Hframe. }
  assert (arc_ok st1 x y i j) as Hxy.
  { intros v. rewrite Hnew, (Hfr y) by done. unfold supported.
    rewrite elem_of_filter. by intros [? _]. }
  destruct r.
  - apply bind_Return in Hrest as (d & st2 & Hget & Hrest).
    apply domains_getitem_Return in Hget as [-> _].
    destruct (decide (size d = 0)); [done|].
    apply (IH (enqueue_neighbors cw x y arcs') st1 st'); [done| |done].
    intros a b i' j' Hg Hab. rewrite enqueue_neighbors_elem.
    destruct (Hinv a b i' j' Hg Hab) as [Hin|Hok].
    { apply elem_of_app in Hin as [|Hin]; [left; by left|].
      apply list_elem_of_singleton in Hin as [= -> ->]. right.
      by assert (i' = i ∧ j' = j) as [-> ->] by (split; congruence). }
    destruct (wf_keys cw Hcw a b) as [(Ha & Hb & Hab') _]; [by eexists|].
    destruct (decide (b = x)) as [->|Hbx].
    + destruct (decide (a = y)) as [->|Hay].
      * right. pose proof (wf_sym cw Hcw x y i j Ho) as Hsym.
        assert (i' = j ∧ j' = i) as [-> ->] by (split; congruence).
        intros v. rewrite (Hfr y) by done. intros Hv.
        destruct (Hok v Hv) as (w & Hw & Hag). exists w. split; [|done].
        rewrite Hnew. unfold supported. apply elem_of_filter. split; [|done].
        exists v. split; [done|]. by apply agree_sym.
      * left. right. exists a. split; [done|]. split; [|done].
        unfold neighbors. apply elem_of_filter. split; [|done].
        split; [done|]. rewrite Hab. by eexists.
    + right. intros v Hv. rewrite (Hfr b) by done. apply Hok.
      destruct (decide (a = x)) as [->|Hax]; [|by rewrite <-(Hfr a)].
      rewrite Hnew in Hv. by apply supported_subseteq in Hv.
  - symmetry in Hr. apply bool_decide_eq_false in Hr. apply dec_stable in Hr.
    assert (∀ z, domain_words st1 z = domain_words st z) as Hsame.
    { intros z. destruct (decide (z = x)) as [->|]; [done|by apply Hfr]. }
    apply (IH arcs' st1 st'); [done| |done]. intros a b i' j' Hg Hab.
    destruct (Hinv a b i' j' Hg Hab) as [Hin|Hok].
    + apply elem_of_app in Hin as [|Hin]; [by left|].
      apply list_elem_of_singleton in Hin as [= -> ->]. right.
      by assert (i' = i ∧ j' = j) as [-> ->] by (split; congruence).
    + right. intros v. rewrite !Hsame. apply Hok.
Qed.

(** X10.  When [ac3] is called with a worklist and returns [True], every
    arc of that worklist whose slots overlap is consistent in the state
    it leaves, also the arcs whose first slot was pruned again later. *)
Theorem ac3_given_arcs_consistent cw arcs st st' :
  wf_crossword cw → wf_store cw st →
  ac3 cw (Some arcs) st = (Return true, st') →
  ∀ X Y i j, (X, Y) ∈ arcs → overlaps cw !! (X, Y) = Some (Some (i, j)) →
    ∀ x, x ∈ domain_words st' X →
      ∃ y, y ∈ domain_words st' Y ∧ agree i j x y.
Proof.
  intros Hcw Hwf Hrun X Y i j HXY Ho. unfold ac3 in Hrun.
  eapply (ac3_loop_consistent_on cw arcs Hcw); [done| |done..].
  intros. by left.
Qed.

(** ** Propagation loses no solution *)

(** The loop removes no word of an assignment that fills every slot and
    respects the overlaps, and does not return [False] while the domains hold
    one. *)
Lemma ac3_loop_keeps cw a :
  wf_crossword cw → complete cw a → respects_overlaps cw a →
  ∀ fuel arcs st b st',
  wf_store cw st → in_domains st a →
  ac3_loop cw fuel arcs st = (Return b, st') → b = true ∧ in_domains st' a.
Proof.
  intros Hcw Hco Hro. induction fuel as [|fuel IH];
    intros arcs st b st' Hwf Hin; [done|]. simpl.
  destruct (list_pop arcs) as [[arcs' [x y]]|]; [|by intros [= <- <-]].
  intros (r & st1 & Hrev & Hrest)%bind_Return.
  destruct (revise_Return_overlap cw x y st r st1 Hrev) as [o Ho].
  destruct (wf_keys cw Hcw x y) as [(Hx & Hy & Hne) _]; [by eexists|].
  pose proof (revise_shrinks cw x y st) as Hs. rewrite Hrev in Hs. simpl in Hs.
  assert (wf_store cw st1) as Hwf1 by by eapply shrinks_wf_store.
  assert (in_domains st1 a) as Hin1.
  { destruct o as [[i j]|].
    2:{ by destruct (revise_Return_None cw x y st _ _ Ho Hrev) as [_ ->]. }
    destruct (revise_Return_wf cw x y i j st r st1) as (Hnew & Hfr & _);
      [done..|].
    intros z v Hz. destruct (decide (z = x)) as [->|Hzx].
    - rewrite Hnew. unfold supported. apply elem_of_filter.
      split; [|by apply Hin]. destruct (Hco y Hy) as [w Hw].
      exists w. split; [by apply Hin|]. by apply (Hro x y i j v w).
    - rewrite (domain_words_frame st st1 z) by by apply Hfr. by apply Hin. }
  destruct r; [|by eapply IH].
  apply bind_Return in Hrest as (d & st2 & Hget & Hrest).
  apply domains_getitem_Return in Hget as [-> Hd].
  destruct (decide (size d = 0)) as [Hsz|]; [|by eapply IH].
  exfalso. destruct (Hco x Hx) as [v Hv]. specialize (Hin1 x v Hv).
  unfold domain_words in Hin1. rewrite Hd in Hin1. simpl in Hin1.
  apply size_empty_inv in Hsz. by apply Hsz in Hin1.
Qed.

(** X11.  [ac3] removes no word of a solution: when the domains hold the
    words of an assignment that fills every slot and agrees at every
    overlap, a call of [ac3] that returns, returns [True], and the
    domains still hold those words. *)
Theorem ac3_keeps_solutions cw a arcs st b st' :
  wf_crossword cw → wf_store cw st →
  complete cw a → respects_overlaps cw a → in_domains st a →
  ac3 cw arcs st = (Return b, st') →
  b = true ∧ ∀ x w, a !! x = Some w → w ∈ domain_words st' x.
Proof.
  intros Hcw Hwf Hco Hro Hin Hrun. unfold ac3 in Hrun.
  by eapply (ac3_loop_keeps cw a).
Qed.

(** X12.  The two propagation steps of [solve] on a new creator lose no
    solution: for every valid assignment made of words of the vocabulary,
    [enforce_node_consistency] returns, [ac3] then returns [True], and the
    domains still hold the word of every slot. *)
Theorem propagation_keeps_solutions cw a :
  wf_crossword cw → valid_assignment cw a → dom a ⊆ variables cw →
  (∀ x w, a !! x = Some w → w ∈ words cw) →
  ∃ st1 st2,
    enforce_node_consistency (init cw) = (Return (), st1) ∧
    ac3 cw None st1 = (Return true, st2) ∧
    ∀ x w, a !! x = Some w → w ∈ domain_words st2 x.
Proof.
  intros Hcw (Hco & _ & Hfl & Hro) Hdom Hwords.
  pose proof (init_wf_store cw) as Hwf.
  destruct (enforce_node_consistency_fitting cw (init cw) Hwf)
    as (st1 & Hrun1 & Hex).
  destruct (enforce_node_consistency_ok (init cw)) as (st1' & Hrun1' & Hs & Hnc);
    [by destruct Hwf as (_ & ? & _)|].
  rewrite Hrun1 in Hrun1'. injection Hrun1' as <-.
  assert (wf_store cw st1) as Hwf1 by by eapply shrinks_wf_store.
  assert (in_domains st1 a) as Hin.
  { intros x w Hx. rewrite Hex. unfold fitting. apply elem_of_filter.
    split; [by apply Hfl|]. unfold domain_words. rewrite init_domain_of.
    rewrite decide_True; [by eapply Hwords|].
    apply Hdom. by apply elem_of_dom. }
  destruct (ac3_returns cw st1) as (b & st2 & Hrun2); [done..|].
  destruct (ac3_loop_keeps cw a Hcw Hco Hro _ _ _ _ _ Hwf1 Hin Hrun2) as [-> Hin2].
  by exists st1, st2.
Qed.

(** ** AC-3 computes the largest arc-consistent domains *)

(** The loop removes no word of a family of sets of words in which every
    arc is consistent. *)
Lemma ac3_loop_keeps_family cw (F : variable → gset string) :
  wf_crossword cw →
  (∀ x y i j v, overlaps cw !! (x, y) = Some (Some (i, j)) → v ∈ F x →
     ∃ w, w ∈ F y ∧ agree i j v w) →
  ∀ fuel arcs st b st',
  wf_store cw st →
  (∀ x, x ∈ variables cw → F x ⊆ domain_words st x) →
  ac3_loop cw fuel arcs st = (Return b, st') →
  ∀ x, x ∈ variables cw → F x ⊆ domain_words st' x.
Proof.
  intros Hcw HF. induction fuel as [|fuel IH];
    intros arcs st b st' Hwf Hin; [done|]. simpl.
  destruct (list_pop arcs) as [[arcs' [x y]]|]; [|by intros [= <- <-]].
  intros (r & st1 & Hrev & Hrest)%bind_Return.
  destruct (revise_Return_overlap cw x y st r st1 Hrev) as [o Ho].
  destruct (wf_keys cw Hcw x y) as [(Hx & Hy & Hne) _]; [by eexists|].
  pose proof (revise_shrinks cw x y st) as Hs. rewrite Hrev in Hs. simpl in Hs.
  assert (wf_store cw st1) as Hwf1 by by eapply shrinks_wf_store.
  assert (∀ z, z ∈ variables cw → F z ⊆ domain_words st1 z) as Hin1.
  { destruct o as [[i j]|].
    2:{ by destruct (revise_Return_None cw x y st _ _ Ho Hrev) as [_ ->]. }
    destruct (revise_Return_wf cw x y i j st r st1) as (Hnew & Hfr & _);
      [done..|].
    intros z Hz v Hv. destruct (decide (z = x)) as [->|Hzx].
    - rewrite Hnew. unfold supported. apply elem_of_filter.
      split; [|by apply (Hin x)]. destruct (HF x y i j v Ho Hv) as (w & Hw & Hag).
      exists w. split; [by apply (Hin y)|done].
    - rewrite (domain_words_frame st st1 z) by by apply Hfr. by apply (Hin z). }
  destruct r; [|by eapply IH].
  apply bind_Return in Hrest as (d & st2 & Hget & Hrest).
  apply domains_getitem_Return in Hget as [-> Hd].
  destruct (decide (size d = 0)) as [Hsz|]; [|by eapply IH].
  by injection Hrest as <- <-.
Qed.

(** X13.  [ac3] leaves the largest arc-consistent domains: a family of sets
    of words, one for each slot, that lie inside the domains and in which
    every arc is consistent, still lies inside the domains when [ac3]
    returns. *)
Theorem ac3_keeps_consistent_family cw (F : variable → gset string) arcs st b st' :
  wf_crossword cw → wf_store cw st →
  (∀ x y i j v, overlaps cw !! (x, y) = Some (Some (i, j)) → v ∈ F x →
     ∃ w, w ∈ F y ∧ agree i j v w) →
  (∀ x, x ∈ variables cw → F x ⊆ domain_words st x) →
  ac3 cw arcs st = (Return b, st') →
  ∀ x, x ∈ variables cw → F x ⊆ domain_words st' x.
Proof.
  intros Hcw Hwf HF Hin Hrun. unfold ac3 in Hrun.
  by eapply (ac3_loop_keeps_family cw F).
Qed.

(** ** The order of the worklist does not matter *)

(** A worklist that holds every arc leaves every arc consistent. *)
Lemma ac3_covering_arc_consistent cw arcs st st' :
  wf_crossword cw → wf_store cw st →
  (∀ x y i j, overlaps cw !! (x, y) = Some (Some (i, j)) → (x, y) ∈ arcs) →
  ac3 cw (Some arcs) st = (Return true, st') → arc_consistent cw st'.
Proof.
  intros Hcw Hwf Hcov Hrun x y i j Ho. unfold ac3 in Hrun.
  eapply (ac3_loop_consistent_on cw arcs Hcw); [done| |done| |done].
  - intros. by left.
  - by eapply Hcov.
Qed.

Lemma ac3_below cw arcs1 arcs2 st st1 st2 b :
  wf_crossword cw → wf_store cw st →
  (∀ x y i j, overlaps cw !! (x, y) = Some (Some (i, j)) → (x, y) ∈ arcs1) →
  ac3 cw (Some arcs1) st = (Return true, st1) →
  ac3 cw (Some arcs2) st = (Return b, st2) →
  ∀ x, domain_words st1 x ⊆ domain_words st2 x.
Proof.
  intros Hcw Hwf Hcov H1 H2 x.
  pose proof (ac3_shrinks cw (Some arcs1) st) as Hs1. rewrite H1 in Hs1.
  pose proof (ac3_shrinks cw (Some arcs2) st) as Hs2. rewrite H2 in Hs2.
  simpl in *.
  destruct (decide (x ∈ variables cw)) as [Hx|Hx].
  - unfold ac3 in H2.
    eapply (ac3_loop_keeps_family cw (domain_words st1) Hcw); [|done| |done..].
    + intros a c i j v Ho Hv.
      by apply (ac3_covering_arc_consistent cw arcs1 st st1 Hcw Hwf Hcov H1 a c i j).
    + intros z _. by apply shrinks_domain_words.
  - assert (domain_words st1 x = ∅) as ->; [|set_solver].
    destruct Hwf as (Hdom & _). destruct Hs1 as [Hd1 _].
    unfold domain_words, domain_of. rewrite Hd1.
    rewrite <-Hdom in Hx. apply not_elem_of_dom in Hx. by rewrite Hx.
Qed.

(** X14.  The order of the worklist does not matter: two calls of [ac3] from
    the same state, each with a worklist that holds every arc of the
    crossword in some order, that both return [True], leave the same words
    in the domain of every slot. *)
Theorem ac3_order_irrelevant cw arcs1 arcs2 st st1 st2 :
  wf_crossword cw → wf_store cw st →
  (∀ x y i j, overlaps cw !! (x, y) = Some (Some (i, j)) →
     (x, y) ∈ arcs1 ∧ (x, y) ∈ arcs2) →
  ac3 cw (Some arcs1) st = (Return true, st1) →
  ac3 cw (Some arcs2) st = (Return true, st2) →
  ∀ x, domain_words st1 x = domain_words st2 x.
Proof.
  intros Hcw Hwf Hcov H1 H2 x. apply set_eq. intros v. split.
  - apply (ac3_below cw arcs1 arcs2 st st1 st2 true); try done.
    intros a c i j Ho. by destruct (Hcov a c i j Ho).
  - apply (ac3_below cw arcs2 arcs1 st st2 st1 true); try done.
    intros a c i j Ho. by destruct (Hcov a c i j Ho).
Qed.

(** ** What propagation keeps of the store *)

(** X15.  Whatever their outcome, [revise] and [ac3] keep the shape of the
    store (its keys are the slots, no two slots share a set object) and keep
    node-consistent domains node consistent. *)
Theorem propagation_keeps_invariants cw st x y arcs :
  wf_store cw st → node_consistent st →
  (wf_store cw (revise cw x y st).2 ∧ node_consistent (revise cw x y st).2) ∧
  (wf_store cw (ac3 cw arcs st).2 ∧ node_consistent (ac3 cw arcs st).2).
Proof.
  intros Hwf Hnc. assert (allocated st) as Hal by by destruct Hwf as (_ & ? & _).
  split; split.
  - eapply shrinks_wf_store; [apply revise_shrinks|done].
  - eapply shrinks_node_consistent; [apply revise_shrinks|done..].
  - eapply shrinks_wf_store; [apply ac3_shrinks|done].
  - eapply shrinks_node_consistent; [apply ac3_shrinks|done..].
Qed.

(** ** The consistency test of the search *)

Lemma consistent_neighbors_Return cw var ns st st' :
  consistent_neighbors cw var ns st = (Return (), st') → ns = [] ∧ st' = st.
Proof.
  destruct ns as [|n ns]; simpl; [by intros [= <-]|].
  intros (o & st1 & _ & H)%bind_Return. by destruct o as [[i j]|].
Qed.

(** When the loop of [consistent] returns [True]. *)
Lemma consistent_loop_true cw items : ∀ values_present st st',
  consistent_loop cw items values_present st = (Return true, st') ↔
  st' = st ∧
  Forall (λ p, String.length p.2 = var_length p.1 ∧ neighbors cw p.1 = ∅) items ∧
  NoDup items.*2 ∧ (∀ v, v ∈ items.*2 → v ∉ values_present).
Proof.
  induction items as [|[var value] items IH]; intros vp st st'; simpl.
  - split.
    + intros [= <-]. split_and!; [done|constructor|constructor|].
      by intros v ?%elem_of_nil.
    + by intros (-> & _).
  - destruct (decide (String.length value ≠ var_length var)) as [Hlen|Hlen].
    { split; [done|]. by intros (_ & [[? _] _]%Forall_cons & _). }
    apply dec_stable in Hlen.
    destruct (decide (value ∈ vp)) as [Hvp|Hvp].
    { split; [done|]. intros (_ & _ & _ & Hnot). exfalso.
      apply (Hnot value); [left|done]. }
    split.
    + intros ([] & st1 & [Hns ->]%consistent_neighbors_Return & H)%bind_Return.
      apply IH in H as (-> & Hall & Hnd & Hnot). split; [done|].
      split_and!.
      * constructor; [|done]. split; [done|]. simpl.
        by apply leibniz_equiv, elements_empty_inv.
      * constructor; [|done]. intros Hin. apply (Hnot value Hin).
        apply elem_of_app. right. left.
      * intros v [->|Hv]%elem_of_cons; [done|]. intros Hin.
        apply (Hnot v Hv). apply elem_of_app. by left.
    + intros (-> & [[_ Hns] Hall]%Forall_cons & [Hv Hnd]%NoDup_cons & Hnot).
      simpl in Hns. unfold bind. rewrite Hns, elements_empty. simpl.
      apply IH. split; [done|]. split; [done|]. split; [done|].
      intros v Hin [Hvp'| ->%list_elem_of_singleton]%elem_of_app; [|done].
      apply (Hnot v); [by right|done].
Qed.

Lemma NoDup_values_distinct (a : Assignment) :
  NoDup (map_to_list a).*2 ↔ distinct_words a.
Proof.
  split.
  - intros Hnd x y w Hx%elem_of_map_to_list Hy%elem_of_map_to_list.
    by injection (NoDup_fmap_elem_inj snd _ (x, w) (y, w) Hnd Hx Hy eq_refl).
  - intros Hd. apply NoDup_fmap_2_strong; [|apply NoDup_map_to_list].
    intros [x v] [y w] Hx%elem_of_map_to_list Hy%elem_of_map_to_list Heq.
    simpl in Heq. subst w. by rewrite (Hd x y v Hx Hy).
Qed.

Lemma consistent_Return_true cw a st st' :
  consistent cw a st = (Return true, st') ↔
  st' = st ∧ fits_lengths a ∧ distinct_words a ∧ no_crossing cw a.
Proof.
  unfold consistent. rewrite consistent_loop_true, NoDup_values_distinct.
  rewrite Forall_forall. split.
  - intros (-> & Hall & Hd & _). split; [done|]. split_and!; [|done|].
    + intros x w Hx%elem_of_map_to_list. by destruct (Hall _ Hx).
    + intros x [w Hx%elem_of_map_to_list]. by destruct (Hall _ Hx).
  - intros (-> & Hfl & Hd & Hnc). split; [done|]. split_and!; [|done|].
    + intros [x w] Hx%elem_of_map_to_list. split; [by apply Hfl|].
      apply Hnc. by exists w.
    + by intros v _ ?%elem_of_nil.
Qed.

Lemma consistent_loop_returns cw items : ∀ values_present st,
  Forall (λ p, neighbors cw p.1 = ∅) items →
  ∃ b, consistent_loop cw items values_present st = (Return b, st).
Proof.
  induction items as [|[var value] items IH]; intros vp st Hall; simpl.
  - by exists true.
  - apply Forall_cons in Hall as [Hns Hall]. simpl in Hns.
    destruct (decide _); [by exists false|].
    destruct (decide _); [by exists false|].
    unfold bind. rewrite Hns, elements_empty. simpl. by apply IH.
Qed.

Lemma consistent_returns cw a st :
  no_crossing cw a → ∃ b, consistent cw a st = (Return b, st).
Proof.
  intros Hnc. apply consistent_loop_returns. apply Forall_forall.
  intros [x w] Hx%elem_of_map_to_list. apply Hnc. by exists w.
Qed.

(** X16.  [consistent] returns [True] exactly for the assignments whose words
    have the length of their slots and are pairwise distinct and none of
    whose slots has a neighbor, and it leaves the domains as they are; for
    an assignment with a slot that crosses another it never returns [True].
    When no slot of the assignment has a neighbor it returns. *)
Theorem consistent_outcome cw a st :
  (∀ st', consistent cw a st = (Return true, st') ↔
          st' = st ∧ fits_lengths a ∧ distinct_words a ∧ no_crossing cw a) ∧
  (no_crossing cw a → ∃ b, consistent cw a st = (Return b, st)).
Proof.
  split; [intros st'; apply consistent_Return_true|apply consistent_returns].
Qed.

(** ** The completeness test *)

(** X17.  [assignment_complete] returns on the empty assignment only, with
    [True] exactly when the crossword has no slot; on every assignment that
    holds a word it raises [KeyError], since it removes the words, not the
    slots, from the set of slots.  The domains are left as they are. *)
Theorem assignment_complete_outcome cw a st :
  assignment_complete cw a st =
    (if decide (a = ∅) then Return (bool_decide (variables cw = ∅))
     else Raise KeyError, st).
Proof.
  unfold assignment_complete.
  destruct (decide (a = ∅)) as [->|Hne].
  - rewrite map_to_list_empty. simpl. unfold bind, ret. simpl. do 2 f_equal.
    apply bool_decide_ext. rewrite size_empty_iff. by fold_leibniz.
  - destruct (map_to_list a) as [|[x w] l] eqn:Hl.
    + by apply map_to_list_empty_iff in Hl.
    + done.
Qed.

(** ** solve on a new creator *)

(** X18.  On a new creator of a well-formed crossword, [solve] returns the
    empty assignment when the crossword has no slot and raises [TypeError]
    otherwise; it never returns [None]. *)
Theorem solve_outcome cw :
  wf_crossword cw →
  (solve cw (init cw)).1 =
    if decide (variables cw = ∅) then Return (Some ∅) else Raise TypeError.
Proof.
  intros Hcw. destruct (decide (variables cw = ∅)) as [He|Hne];
    [|by apply solve_raises_TypeError].
  pose proof (init_wf_store cw) as Hwf. unfold solve.
  destruct (enforce_node_consistency_ok (init cw)) as (st1 & H1 & Hs1 & Hnc);
    [by destruct Hwf as (_ & ? & _)|].
  unfold bind at 1. rewrite H1.
  assert (wf_store cw st1) as Hwf1 by by eapply shrinks_wf_store.
  destruct (ac3_returns cw st1) as (b & st2 & H2); [done..|].
  unfold bind at 1. rewrite H2.
  pose proof (ac3_shrinks cw None st1) as Hs2. rewrite H2 in Hs2.
  destruct (shrinks_wf_store cw st1 st2 Hs2 Hwf1) as (Hdom & _).
  unfold backtrack. rewrite decide_True; [done|].
  by rewrite map_size_empty, <-(size_dom (D:=gset variable)), Hdom, He, size_empty.
Qed.

(** ** The letter grid *)

Lemma string_get_None (s : string) k :
  String.length s ≤ k → String.get k s = None.
Proof.
  revert k. induction s as [|c s IH]; intros k; simpl; [done|].
  destruct k as [|k]; [lia|]. intros Hk. apply IH. lia.
Qed.

Lemma offset_cell var i j k : offset var i j = Some k ↔ cell var k = (i, j).
Proof.
  unfold offset, cell. destruct (var_direction var).
  - destruct (decide _) as [[-> Hj]|Hn].
    + split; [intros [= <-]; f_equal; lia|intros [= Hk]; f_equal; lia].
    + split; [done|]. intros [= <- <-]. exfalso. apply Hn. split; [done|lia].
  - destruct (decide _) as [[-> Hi]|Hn].
    + split; [intros [= <-]; f_equal; lia|intros [= Hk]; f_equal; lia].
    + split; [done|]. intros [= <- <-]. exfalso. apply Hn. split; [done|lia].
Qed.

Lemma letter_at_cell var word k :
  letter_at var word (cell var k).1 (cell var k).2 = String.get k word.
Proof.
  unfold letter_at.
  assert (offset var (cell var k).1 (cell var k).2 = Some k) as ->; [|done].
  apply offset_cell. by destruct (cell var k).
Qed.

Lemma model_cell_i var k :
  var_i var + (if decide (var_direction var = DOWN) then k else 0)
  = (cell var k).1.
Proof. unfold cell. destruct (var_direction var); simpl; lia. Qed.

Lemma model_cell_j var k :
  var_j var + (if decide (var_direction var = ACROSS) then k else 0)
  = (cell var k).2.
Proof. unfold cell. destruct (var_direction var); simpl; lia. Qed.

Lemma grid_setitem_Return letters i j c st letters' st' :
  grid_setitem letters i j c st = (Return letters', st') →
  st' = st ∧ ∃ row, letters !! i = Some row ∧ j < length row ∧
                    letters' = <[i := <[j := Some c]> row]> letters.
Proof.
  unfold grid_setitem. destruct (letters !! i) as [row|]; [|done].
  destruct (decide (j < length row)); [|done]. intros [= <- <-].
  split; [done|]. by exists row.
Qed.

Lemma grid_setitem_outcome letters i j c st :
  (∃ letters', grid_setitem letters i j c st = (Return letters', st)) ∨
  grid_setitem letters i j c st = (Raise IndexError, st).
Proof.
  unfold grid_setitem. destruct (letters !! i) as [row|]; [|by right].
  destruct (decide (j < length row)); [left; by eexists|by right].
Qed.

Lemma grid_shape_insert height width letters i j c row :
  grid_shape height width letters → letters !! i = Some row →
  grid_shape height width (<[i := <[j := Some c]> row]> letters).
Proof.
  intros [Hlen Hrows] Hrow. split; [by rewrite length_insert|].
  apply Forall_insert; [done|]. rewrite length_insert.
  by eapply Forall_lookup_1 in Hrows.
Qed.

Lemma grid_get_insert letters i j c row i' j' :
  letters !! i = Some row → j < length row →
  grid_get (<[i := <[j := Some c]> row]> letters) i' j' =
    if decide ((i', j') = (i, j)) then Some (Some c) else grid_get letters i' j'.
Proof.
  intros Hrow Hj. unfold grid_get. pose proof (lookup_lt_Some _ _ _ Hrow) as Hi.
  destruct (decide (i' = i)) as [->|Hi'].
  - rewrite list_lookup_insert_eq by done. rewrite Hrow. simpl.
    destruct (decide (j' = j)) as [->|Hj'].
    + rewrite decide_True by done. by rewrite list_lookup_insert_eq.
    + rewrite decide_False by congruence. by rewrite list_lookup_insert_ne.
  - rewrite decide_False by congruence. by rewrite list_lookup_insert_ne.
Qed.

Lemma grid_get_lt height width letters i j :
  grid_shape height width letters → i < height → j < width →
  is_Some (grid_get letters i j).
Proof.
  intros [Hlen Hrows] Hi Hj. unfold grid_get.
  destruct (lookup_lt_is_Some_2 letters i) as [row Hrow]; [lia|].
  rewrite Hrow. simpl. apply lookup_lt_is_Some_2.
  eapply Forall_lookup_1 in Hrows; [|done]. simpl in Hrows. lia.
Qed.

(** The loop over the offsets of one word, from offset [k0] on. *)
Lemma letter_grid_word_Return height width var word n :
  ∀ k0 letters st letters' st',
  grid_shape height width letters →
  letter_grid_word var word (seq k0 n) letters st = (Return letters', st') →
  st' = st ∧ grid_shape height width letters' ∧
  (∀ k, k0 ≤ k < k0 + n →
     (cell var k).1 < height ∧ (cell var k).2 < width) ∧
  ∀ i j, grid_get letters' i j =
    match offset var i j with
    | Some k => if decide (k0 ≤ k < k0 + n) then Some (String.get k word)
                else grid_get letters i j
    | None => grid_get letters i j
    end.
Proof.
  induction n as [|n IH]; intros k0 letters st letters' st' Hshape; simpl.
  - intros [= <- <-]. split; [done|]. split; [done|]. split; [lia|].
    intros i j. destruct (offset var i j) as [k|]; [|done].
    destruct (decide _); [lia|done].
  - unfold str_getitem. destruct (String.get k0 word) as [c|] eqn:Hc; [|done].
    rewrite model_cell_i, model_cell_j.
    intros (g1 & st1 & Hset & Hrest)%bind_Return.
    apply grid_setitem_Return in Hset as (-> & row & Hrow & Hj & ->).
    apply IH in Hrest as (-> & Hshape' & Hin & Hget);
      [|by apply grid_shape_insert].
    split; [done|]. split; [done|]. split.
    + intros k Hk. destruct (decide (k = k0)) as [->|]; [|apply Hin; lia].
      destruct Hshape as [<- Hrows]. split; [by eapply lookup_lt_Some|].
      eapply Forall_lookup_1 in Hrows; [|done]. simpl in Hrows. lia.
    + intros i j. rewrite Hget, grid_get_insert by done.
      destruct (offset var i j) as [k|] eqn:Hoff.
      * apply offset_cell in Hoff.
        destruct (decide (S k0 ≤ k < S k0 + n)) as [|Hk].
        { rewrite (decide_True (P:=k0 ≤ k < k0 + S n)) by lia. done. }
        destruct (decide (k = k0)) as [->|Hk0].
        -- rewrite (decide_True (P:=k0 ≤ k0 < k0 + S n)) by lia.
           rewrite decide_True; [by rewrite Hc|].
           rewrite <-Hoff. by destruct (cell var k0).
        -- rewrite (decide_False (P:=k0 ≤ k < k0 + S n)) by lia.
           rewrite decide_False; [done|]. intros Heq. apply Hk0.
           assert (offset var i j = Some k0) as Ho.
           { apply offset_cell. rewrite Heq. by destruct (cell var k0). }
           apply offset_cell in Hoff. congruence.
      * rewrite decide_False; [done|]. intros Heq.
        assert (offset var i j = Some k0) as Ho; [|congruence].
        apply offset_cell. rewrite Heq. by destruct (cell var k0).
Qed.

Lemma letter_grid_word_fits height width var word n :
  ∀ k0 letters st,
  grid_shape height width letters → k0 + n ≤ String.length word →
  (∀ k, k0 ≤ k < k0 + n →
     (cell var k).1 < height ∧ (cell var k).2 < width) →
  ∃ letters', letter_grid_word var word (seq k0 n) letters st
              = (Return letters', st).
Proof.
  induction n as [|n IH]; intros k0 letters st Hshape Hlen Hin; simpl.
  - by eexists.
  - unfold str_getitem.
    destruct (string_get_is_Some word k0) as [c ->]; [lia|].
    rewrite model_cell_i, model_cell_j. destruct (Hin k0) as [Hi Hj]; [lia|].
    destruct Hshape as [Hh Hrows].
    destruct (lookup_lt_is_Some_2 letters (cell var k0).1) as [row Hrow]; [lia|].
    pose proof (Forall_lookup_1 _ _ _ _ Hrows Hrow) as Hw. simpl in Hw.
    unfold bind, grid_setitem. rewrite Hrow.
    rewrite decide_True by lia. simpl.
    apply IH; [by apply grid_shape_insert|lia|]. intros k Hk. apply Hin. lia.
Qed.

Lemma letter_grid_word_outcome var word ks : ∀ letters st,
  (∃ letters', letter_grid_word var word ks letters st = (Return letters', st)) ∨
  letter_grid_word var word ks letters st = (Raise IndexError, st).
Proof.
  induction ks as [|k ks IH]; intros letters st; simpl; [left; by eexists|].
  unfold str_getitem. destruct (String.get k word) as [c|]; [|by right].
  unfold bind.
  destruct (grid_setitem_outcome letters
              (var_i var + (if decide (var_direction var = DOWN) then k else 0))
              (var_j var + (if decide (var_direction var = ACROSS) then k else 0))
              c st) as [[g1 ->]| ->]; [apply IH|by right].
Qed.

Lemma letter_at_word var word i j :
  match offset var i j with
  | Some k => if decide (0 ≤ k < 0 + String.length word)
              then Some (String.get k word) else None
  | None => None
  end = Some <$> letter_at var word i j.
Proof.
  unfold letter_at. destruct (offset var i j) as [k|]; simpl; [|done].
  destruct (decide _) as [Hk|Hk].
  - destruct (string_get_is_Some word k) as [c ->]; [lia|done].
  - rewrite string_get_None by lia. done.
Qed.

(** The loop over the items. *)
Lemma letter_grid_items_Return height width items :
  ∀ letters st letters' st',
  grid_shape height width letters →
  letter_grid_items items letters st = (Return letters', st') →
  st' = st ∧ grid_shape height width letters' ∧
  (∀ var word k, (var, word) ∈ items → k < String.length word →
     (cell var k).1 < height ∧ (cell var k).2 < width) ∧
  ∀ i j, grid_get letters' i j =
    match written items i j with
    | Some c => Some (Some c)
    | None => grid_get letters i j
    end.
Proof.
  induction items as [|[var word] items IH];
    intros letters st letters' st' Hshape; simpl.
  - intros [= <- <-]. split; [done|]. split; [done|]. split; [|done].
    by intros var word k ?%elem_of_nil.
  - intros (g1 & st1 & Hword & Hrest)%bind_Return.
    eapply letter_grid_word_Return in Hword as (-> & Hshape1 & Hin1 & Hget1);
      [|done].
    apply IH in Hrest as (-> & Hshape' & Hin & Hget); [|done].
    split; [done|]. split; [done|]. split.
    + intros v w k [[= -> ->]|Hvw]%elem_of_cons Hk; [apply Hin1; lia|].
      by eapply Hin.
    + intros i j. rewrite Hget. destruct (written items i j); [done|].
      rewrite Hget1. pose proof (letter_at_word var word i j) as Hl.
      destruct (offset var i j) as [k|]; simpl in *.
      * destruct (decide _); [by rewrite Hl; destruct (letter_at var word i j)|].
        by destruct (letter_at var word i j).
      * by destruct (letter_at var word i j).
Qed.

Lemma letter_grid_items_fits height width items : ∀ letters st,
  grid_shape height width letters →
  (∀ var word k, (var, word) ∈ items → k < String.length word →
     (cell var k).1 < height ∧ (cell var k).2 < width) →
  ∃ letters', letter_grid_items items letters st = (Return letters', st).
Proof.
  induction items as [|[var word] items IH]; intros letters st Hshape Hin; simpl.
  - by eexists.
  - destruct (letter_grid_word_fits height width var word (String.length word)
                0 letters st) as [g1 Hg1]; [done|lia| |].
    { intros k Hk. apply (Hin var word); [left|lia]. }
    unfold bind. rewrite Hg1.
    eapply letter_grid_word_Return in Hg1 as (_ & Hshape1 & _); [|done].
    apply IH; [done|]. intros v w k Hvw. apply Hin. by right.
Qed.

Lemma letter_grid_items_outcome items : ∀ letters st,
  (∃ letters', letter_grid_items items letters st = (Return letters', st)) ∨
  letter_grid_items items letters st = (Raise IndexError, st).
Proof.
  induction items as [|[var word] items IH]; intros letters st; simpl;
    [left; by eexists|].
  unfold bind.
  destruct (letter_grid_word_outcome var word (seq 0 (String.length word))
              letters st) as [[g1 ->]| ->]; [apply IH|by right].
Qed.

Lemma blank_shape height width :
  grid_shape height width (replicate height (replicate width None)).
Proof.
  split; [apply length_replicate|]. apply Forall_replicate, length_replicate.
Qed.

Lemma blank_get height width i j :
  i < height → j < width →
  grid_get (replicate height (replicate width None)) i j = Some None.
Proof.
  intros Hi Hj. unfold grid_get. rewrite lookup_replicate_2 by done. simpl.
  by apply lookup_replicate_2.
Qed.

Lemma fits_grid_items height width (a : Assignment) :
  fits_grid height width a ↔
  ∀ var word k, (var, word) ∈ map_to_list a → k < String.length word →
    (cell var k).1 < height ∧ (cell var k).2 < width.
Proof.
  unfold fits_grid. by setoid_rewrite elem_of_map_to_list.
Qed.

(** X19.  [letter_grid] returns exactly when every character of every word
    of the assignment falls inside the grid, and then the array has [height]
    rows of [width] cells; otherwise it raises [IndexError].  The domains are
    left as they are. *)
Theorem letter_grid_returns_iff_fits height width a st :
  (fits_grid height width a →
     ∃ letters, letter_grid height width a st = (Return letters, st) ∧
                grid_shape height width letters) ∧
  (¬ fits_grid height width a →
     letter_grid height width a st = (Raise IndexError, st)).
Proof.
  unfold letter_grid. split.
  - intros Hfits. pose proof (proj1 (fits_grid_items _ _ _) Hfits) as Hitems.
    destruct (letter_grid_items_fits height width (map_to_list a)
                (replicate height (replicate width None)) st)
      as [g Hg]; [apply blank_shape|exact Hitems|].
    exists g. split; [done|].
    by eapply letter_grid_items_Return in Hg as (_ & ? & _);
      [|apply blank_shape].
  - intros Hnot.
    destruct (letter_grid_items_outcome (map_to_list a)
                (replicate height (replicate width None)) st)
      as [[g Hg]|]; [|done].
    exfalso. apply Hnot, fits_grid_items.
    by eapply letter_grid_items_Return in Hg as (_ & _ & ? & _);
      [|apply blank_shape].
Qed.

Lemma letter_grid_items_cells height width items st letters st' i j :
  letter_grid_items items (replicate height (replicate width None)) st
    = (Return letters, st') →
  i < height → j < width →
  grid_get letters i j = Some (written items i j).
Proof.
  intros Hrun Hi Hj.
  eapply letter_grid_items_Return in Hrun as (_ & _ & _ & Hget);
    [|apply blank_shape].
  rewrite Hget, blank_get by done. by destruct (written items i j).
Qed.

(** X20.  Whatever the order in which [letter_grid] visits the items of
    the assignment, a cell of the array it returns holds the character of
    the last word written over it, and [None] when no word covers it. *)
Theorem letter_grid_items_last_wins height width items st letters st' i j :
  letter_grid_items items (replicate height (replicate width None)) st
    = (Return letters, st') →
  i < height → j < width →
  grid_get letters i j = Some (written items i j).
Proof. apply letter_grid_items_cells. Qed.

Lemma written_Some items i j c :
  written items i j = Some c →
  ∃ var word, (var, word) ∈ items ∧ letter_at var word i j = Some c.
Proof.
  induction items as [|[var word] items IH]; simpl; [done|].
  destruct (written items i j) as [c'|].
  - intros [= ->]. destruct IH as (v & w & Hvw & Hl); [done|].
    exists v, w. split; [by right|done].
  - intros Hl. exists var, word. split; [left|done].
Qed.

Lemma written_None items i j :
  written items i j = None →
  ∀ var word, (var, word) ∈ items → letter_at var word i j = None.
Proof.
  induction items as [|[var word] items IH]; simpl.
  - by intros _ v w ?%elem_of_nil.
  - destruct (written items i j) as [c'|]; [done|].
    intros Hl v w [[= -> ->]|Hvw]%elem_of_cons; [done|]. by apply IH.
Qed.

(** X21.  When the words of the assignment agree wherever two of them cover
    the same cell, the array [letter_grid] returns holds, for every slot
    filled, each character of its word at the cell of that offset, and
    [None] in every cell no word covers. *)
Theorem letter_grid_reads_back height width a st letters st' :
  crossings_agree a →
  letter_grid height width a st = (Return letters, st') →
  (∀ x v k c, a !! x = Some v → String.get k v = Some c →
     grid_get letters (cell x k).1 (cell x k).2 = Some (Some c)) ∧
  (∀ i j, i < height → j < width →
     (∀ x v, a !! x = Some v → letter_at x v i j = None) →
     grid_get letters i j = Some None).
Proof.
  intros Hagree Hrun. unfold letter_grid in Hrun.
  pose proof Hrun as Hrun'.
  eapply letter_grid_items_Return in Hrun' as (_ & _ & Hin & _);
    [|apply blank_shape].
  split.
  - intros x v k c Hx Hc.
    assert (k < String.length v) as Hk.
    { destruct (decide (k < String.length v)) as [|Hge]; [done|].
      rewrite string_get_None in Hc by lia. done. }
    destruct (Hin x v k) as [Hi Hj]; [by apply elem_of_map_to_list|done|].
    rewrite (letter_grid_items_cells _ _ _ _ _ _ _ _ Hrun Hi Hj).
    do 2 f_equal.
    pose proof (letter_at_cell x v k) as Hl. rewrite Hc in Hl.
    destruct (written (map_to_list a) (cell x k).1 (cell x k).2) as [d|] eqn:Hw.
    + apply written_Some in Hw as (y & w & Hy%elem_of_map_to_list & Hd).
      f_equal. by eapply (Hagree y x w v).
    + eapply written_None in Hw; [|by apply elem_of_map_to_list]. congruence.
  - intros i j Hi Hj Hnone.
    rewrite (letter_grid_items_cells _ _ _ _ _ _ _ _ Hrun Hi Hj). f_equal.
    destruct (written (map_to_list a) i j) as [d|] eqn:Hw; [|done].
    apply written_Some in Hw as (y & w & Hy%elem_of_map_to_list & Hd).
    by rewrite (Hnone y w Hy) in Hd.
Qed.

(** ** The properties above on the example crosswords *)

(** The state [solve] hands to [ac3]. *)
Lemma prepared_store cw :
  let st := (enforce_node_consistency (init cw)).2 in
  wf_store cw st ∧ node_consistent st.
Proof.
  intros st. pose proof (init_wf_store cw) as Hwf.
  destruct (enforce_node_consistency_ok (init cw)) as (st1 & Hrun & Hs & Hn);
    [by destruct Hwf as (_ & ? & _)|].
  unfold st. rewrite Hrun. split; [by eapply shrinks_wf_store|done].
Qed.

Lemma in_domains_init cw a :
  dom a ⊆ variables cw → map_Forall (λ _ w, w ∈ words cw) a →
  in_domains (init cw) a.
Proof.
  intros Hdom Hwords x w Hx. unfold domain_words. rewrite init_domain_of.
  rewrite decide_True; [by apply (Hwords x w)|].
  apply Hdom. by apply elem_of_dom.
Qed.

Lemma cat_arc_valid : valid_assignment Examples.crossing3 Examples.cat_arc.
Proof.
  apply (backtrack_Return_valid Examples.crossing3 (init Examples.crossing3)
           Examples.cat_arc Examples.cat_arc (init Examples.crossing3)).
  - apply init_wf_store.
  - apply satisfies_constraints_check_sound. decide_by_compute.
  - by vm_compute.
Qed.

Lemma cat_arc_crossings_agree : crossings_agree Examples.cat_arc.
Proof.
  intros x y v w i j c d Hx Hy Hc Hd. unfold Examples.cat_arc in *.
  apply lookup_insert_Some in Hx as [[<- <-]|[_ Hx]];
    [|apply lookup_insert_Some in Hx as [[<- <-]|[_ Hx]];
      [|by rewrite lookup_empty in Hx]];
  (apply lookup_insert_Some in Hy as [[<- <-]|[_ Hy]];
    [|apply lookup_insert_Some in Hy as [[<- <-]|[_ Hy]];
      [|by rewrite lookup_empty in Hy]]);
  unfold letter_at, offset in *; simpl in *;
  repeat case_decide; simplify_eq/=; try done;
  repeat match goal with H : _ ∧ _ |- _ => destruct H end;
  simplify_eq/=; congruence.
Qed.

Lemma enforce_node_consistency_exact_witness :
  ∃ st', enforce_node_consistency (init Examples.crossing_mixed) = (Return (), st') ∧
    ∀ x, domain_words st' x
         = fitting x (domain_words (init Examples.crossing_mixed) x).
Proof.
  apply (enforce_node_consistency_exact Examples.crossing_mixed).
  apply init_wf_store.
Defined.

Lemma enforce_node_consistency_idempotent_witness :
  ∃ st', enforce_node_consistency (init Examples.crossing_mixed) = (Return (), st') ∧
         enforce_node_consistency st' = (Return (), st').
Proof.
  apply (enforce_node_consistency_idempotent (init Examples.crossing_mixed)).
  decide_by_compute.
Defined.

Lemma revise_idempotent_witness :
  let cw := Examples.crossing_mixed in
  let st := (enforce_node_consistency (init cw)).2 in
  let st' := (revise cw Examples.across Examples.down st).2 in
  revise cw Examples.across Examples.down st' = (Return false, st').
Proof.
  intros cw st st'. destruct (prepared_store cw) as [Hwf Hnc].
  apply (revise_idempotent cw st Examples.across Examples.down true st').
  - apply crossing_wf.
  - done.
  - done.
  - decide_by_compute.
  - decide_by_compute.
  - done.
  - by vm_compute.
Defined.

Lemma ac3_False_empty_domain_witness :
  let cw := Examples.crossing {["CAT"; "DOG"]} in
  ∃ x, domain_of (ac3 cw None (init cw)).2 x = Some ∅.
Proof.
  intros cw. apply (ac3_False_empty_domain cw None (init cw)). by vm_compute.
Defined.

Lemma ac3_True_keeps_nonempty_witness :
  let cw := Examples.crossing3 in
  domain_words (ac3 cw None (init cw)).2 Examples.across ≠ ∅.
Proof.
  intros cw.
  apply (ac3_True_keeps_nonempty cw None (init cw) _ Examples.across).
  - by vm_compute.
  - decide_by_compute.
Defined.

Lemma ac3_leaves_consistent_store_witness :
  let cw := Examples.crossing3 in
  let st := (ac3 cw None (enforce_node_consistency (init cw)).2).2 in
  ac3 cw None st = (Return true, st).
Proof.
  intros cw st. destruct (prepared_store cw) as [Hwf Hnc].
  pose proof (ac3_shrinks cw None (enforce_node_consistency (init cw)).2) as Hs.
  apply (ac3_leaves_consistent_store cw st).
  - apply crossing_wf.
  - by eapply shrinks_wf_store.
  - eapply shrinks_node_consistent; [done| |done]. by destruct Hwf as (_ & ? & _).
  - eapply (ac3_Return_arc_consistent cw); [apply crossing_wf|done|].
    by vm_compute.
Defined.

Lemma ac3_idempotent_witness :
  let cw := Examples.crossing3 in
  let st' := (ac3 cw None (enforce_node_consistency (init cw)).2).2 in
  ac3 cw None st' = (Return true, st').
Proof.
  intros cw st'. destruct (prepared_store cw) as [Hwf Hnc].
  apply (ac3_idempotent cw (enforce_node_consistency (init cw)).2 st').
  - apply crossing_wf.
  - done.
  - done.
  - by vm_compute.
Defined.

Lemma ac3_given_arcs_consistent_witness :
  let cw := Examples.crossing3 in
  let arcs := [(Examples.across, Examples.down)] in
  let st' := (ac3 cw (Some arcs) (init cw)).2 in
  ∃ y, y ∈ domain_words st' Examples.down ∧ agree 1 0 "CAT" y.
Proof.
  intros cw arcs st'.
  apply (ac3_given_arcs_consistent cw arcs (init cw) st' (crossing_wf _)
           (init_wf_store cw) ltac:(by vm_compute)
           Examples.across Examples.down 1 0).
  - left.
  - by vm_compute.
  - decide_by_compute.
Defined.

Lemma ac3_keeps_solutions_witness :
  let cw := Examples.crossing3 in
  let st' := (ac3 cw None (init cw)).2 in
  true = true ∧
  ∀ x w, Examples.cat_arc !! x = Some w → w ∈ domain_words st' x.
Proof.
  intros cw st'. destruct cat_arc_valid as (Hco & _ & _ & Hro).
  apply (ac3_keeps_solutions cw Examples.cat_arc None (init cw) true st').
  - apply crossing_wf.
  - apply init_wf_store.
  - done.
  - done.
  - apply in_domains_init; decide_by_compute.
  - by vm_compute.
Defined.

Lemma propagation_keeps_solutions_witness :
  let cw := Examples.crossing3 in
  ∃ st1 st2,
    enforce_node_consistency (init cw) = (Return (), st1) ∧
    ac3 cw None st1 = (Return true, st2) ∧
    ∀ x w, Examples.cat_arc !! x = Some w → w ∈ domain_words st2 x.
Proof.
  intros cw. apply (propagation_keeps_solutions cw Examples.cat_arc).
  - apply crossing_wf.
  - apply cat_arc_valid.
  - decide_by_compute.
  - change (map_Forall (λ _ w, w ∈ words cw) Examples.cat_arc).
    decide_by_compute.
Defined.

Lemma propagation_keeps_invariants_witness :
  let cw := Examples.crossing3 in
  let st := (enforce_node_consistency (init cw)).2 in
  (wf_store cw (revise cw Examples.across Examples.down st).2 ∧
   node_consistent (revise cw Examples.across Examples.down st).2) ∧
  (wf_store cw (ac3 cw None st).2 ∧ node_consistent (ac3 cw None st).2).
Proof.
  intros cw st. destruct (prepared_store cw) as [Hwf Hnc].
  by apply (propagation_keeps_invariants cw st Examples.across Examples.down None).
Defined.

Lemma solve_outcome_witness :
  (solve Examples.single (init Examples.single)).1 =
    if decide (variables Examples.single = ∅)
    then Return (Some ∅) else Raise TypeError.
Proof. apply (solve_outcome Examples.single single_wf). Defined.

Lemma letter_grid_items_last_wins_witness :
  let items := [(Examples.across, "CAT"); (Examples.down, "ARC")] in
  let letters := [[Some "C"; Some "A"; Some "T"];
                  [None; Some "R"; None];
                  [None; Some "C"; None]]%char in
  grid_get letters 0 1 = Some (written items 0 1).
Proof.
  intros items letters.
  apply (letter_grid_items_last_wins 3 3 items (init Examples.crossing3)
           letters (init Examples.crossing3)).
  - by vm_compute.
  - lia.
  - lia.
Defined.

Lemma letter_grid_reads_back_witness :
  let letters := [[Some "C"; Some "A"; Some "T"];
                  [None; Some "R"; None];
                  [None; Some "C"; None]]%char in
  (∀ x v k c, Examples.cat_arc !! x = Some v → String.get k v = Some c →
     grid_get letters (cell x k).1 (cell x k).2 = Some (Some c)) ∧
  (∀ i j, i < 3 → j < 3 →
     (∀ x v, Examples.cat_arc !! x = Some v → letter_at x v i j = None) →
     grid_get letters i j = Some None).
Proof.
  intros letters.
  apply (letter_grid_reads_back 3 3 Examples.cat_arc (init Examples.crossing3)
           letters (init Examples.crossing3)).
  - apply cat_arc_crossings_agree.
  - by vm_compute.
Defined.

Lemma crossing_overlaps ws x y i j :
  overlaps (Examples.crossing ws) !! (x, y) = Some (Some (i, j)) →
  (x = Examples.across ∧ y = Examples.down ∧ i = 1 ∧ j = 0) ∨
  (x = Examples.down ∧ y = Examples.across ∧ i = 0 ∧ j = 1).
Proof.
  unfold Examples.crossing. simpl.
  intros [[[= <- <-] [= <- <-]]|[_ H]]%lookup_insert_Some; [by left|].
  apply lookup_insert_Some in H as [[[= <- <-] [= <- <-]]|[_ H]]; [by right|].
  by rewrite lookup_empty in H.
Qed.

Lemma ac3_keeps_consistent_family_witness :
  let cw := Examples.crossing3 in
  let F := λ x : variable,
    if decide (x = Examples.across) then {["CAT"]} else {["ARC"]} : gset string in
  F Examples.across ⊆ domain_words (ac3 cw None (init cw)).2 Examples.across.
Proof.
  intros cw F.
  apply (ac3_keeps_consistent_family cw F None (init cw) true
           (ac3 cw None (init cw)).2).
  - apply crossing_wf.
  - apply init_wf_store.
  - intros x y i j v [(-> & -> & -> & ->)|(-> & -> & -> & ->)]%crossing_overlaps
      Hv; unfold F in *; simpl in *; apply elem_of_singleton in Hv as ->.
    + exists "ARC". split; [by apply elem_of_singleton|decide_by_compute].
    + exists "CAT". split; [by apply elem_of_singleton|decide_by_compute].
  - intros x [->%elem_of_singleton| ->%elem_of_singleton]%elem_of_union;
      decide_by_compute.
  - by vm_compute.
  - decide_by_compute.
Defined.

Lemma ac3_order_irrelevant_witness :
  let cw := Examples.crossing3 in
  let arcs1 := [(Examples.across, Examples.down); (Examples.down, Examples.across)] in
  let arcs2 := [(Examples.down, Examples.across); (Examples.across, Examples.down)] in
  domain_words (ac3 cw (Some arcs1) (init cw)).2 Examples.across
  = domain_words (ac3 cw (Some arcs2) (init cw)).2 Examples.across.
Proof.
  intros cw arcs1 arcs2.
  apply (ac3_order_irrelevant cw arcs1 arcs2 (init cw)).
  - apply crossing_wf.
  - apply init_wf_store.
  - intros x y i j [(-> & -> & _)|(-> & -> & _)]%crossing_overlaps;
      split; decide_by_compute.
  - by vm_compute.
  - by vm_compute.
Defined.
